(** * Range-constrained numeric values: [StaticallyBounded] and [DynamicallyBounded]

    A shallow embedding of [src/lib/util/with_limits.hpp].  The two class
    templates are written once, over a type class [numeric] that plays the part
    of the C++ concept of the same name.  They are instantiated at the integral
    types [int] and [unsigned] (32 bits) and at [float] (IEEE-754 binary32,
    taken from [SpecFloat]).  Arithmetic at [unsigned] is modulo 2^32; at [int]
    an overflow is undefined in the language, and the statements that depend
    on the result of an operation at [int] assume that it is representable.

    Of [src/testing.t.hpp], which the header includes, the helpers that
    compute are embedded as well: [float_cmp] and [approx] in binary32, the
    printing of a vector, and the parsing in [debuggerIsAttached]. *)

From Stdlib Require Import Ascii String.
From Stdlib Require Import ZArith Bool List Lia.
From Stdlib Require Import SpecFloat.
Import ListNotations.

Local Open Scope Z_scope.

(* ================================================================== *)
(** * The underlying numeric type *)
(* ================================================================== *)

(** [float] is IEEE-754 binary32: 24 bits of precision, [emax = 128]. *)
Definition float : Type := spec_float.
Definition float_prec : Z := 24.
Definition float_emax : Z := 128.
Definition float_div : float -> float -> float := SFdiv float_prec float_emax.
Definition float_lt : float -> float -> bool := SFltb.

(** [static_cast<float>(n)] for an integer [n]: round to nearest, ties to even. *)
Definition float_of_Z (n : Z) : float :=
  binary_normalize float_prec float_emax n 0 false.

(** The floats [+0.0] and [1.0]. *)
Definition float_zero : float := S754_zero false.
Definition float_one : float := S754_finite false 8388608 (-23).

(** NaN, the one float that compares with nothing. *)
Definition is_nan (x : float) : bool :=
  match x with S754_nan => true | _ => false end.

(** Two finite numbers of one sign are compared by exponent, then by
    mantissa. *)
Definition lex (e1 : Z) (m1 : positive) (e2 : Z) (m2 : positive) : comparison :=
  match e1 ?= e2 with
  | Lt => Lt
  | Gt => Gt
  | Eq => Pos.compare m1 m2
  end.

(** The numbers of binary32: not NaN, and with a mantissa and an exponent
    that binary32 has. *)
Definition float_is_number (x : float) : bool :=
  negb (is_nan x) && valid_binary float_prec float_emax x.


(** What the templates ask of [T]: the built-in comparisons and arithmetic,
    the conversion [static_cast<T>] from the [int] template arguments,
    [std::is_integral_v<T>] and the overload of [util::math::modulo] the wrap
    branch calls. *)
Class numeric (T : Type) : Type := {
  is_integral_v : bool;
  static_cast : Z -> T;
  ltT : T -> T -> bool;
  leT : T -> T -> bool;
  eqT : T -> T -> bool;
  addT : T -> T -> T;
  subT : T -> T -> T;
  mulT : T -> T -> T;
  modulo : T -> T -> T
}.

(** [static_cast<float>(x)] for [x : T], where it is modelled. *)
Class float_castable (T : Type) : Type := to_float : T -> float.

(** [a > b] and [a != b] on an arithmetic type are [b < a] and [!(a == b)]. *)
Definition gtT {T} `{numeric T} (a b : T) : bool := ltT b a.
Definition neT {T} `{numeric T} (a b : T) : bool := negb (eqT a b).

(** The order facts of an integral type.  A floating-point [T] does not have
    them: NaN compares with nothing, and [+0.0] and [-0.0] are equal without
    being the same value. *)
Class numeric_order (T : Type) `{numeric T} : Prop := {
  ltT_irrefl : forall a : T, ltT a a = false;
  ltT_trans : forall a b c : T, ltT a b = true -> ltT b c = true -> ltT a c = true;
  ltT_total : forall a b : T, ltT a b = false -> ltT b a = false -> a = b;
  leT_ltT : forall a b : T, leT a b = negb (ltT b a);
  eqT_spec : forall a b : T, eqT a b = true <-> a = b
}.

(** The order facts that a floating-point [T] has as well, on the values
    that [is_number] accepts. *)
Class numeric_weak_order (T : Type) `{numeric T} (is_number : T -> bool) : Prop := {
  wo_leT_ltT : forall a b : T,
    is_number a = true -> is_number b = true -> leT a b = negb (ltT b a);
  wo_ltT_asym : forall a b : T, ltT a b = true -> ltT b a = false;
  wo_leT_ltT_trans : forall a b c : T,
    leT a b = true -> ltT b c = true -> ltT a c = true
}.

(* ------------------------------------------------------------------ *)
(** ** <algorithm> *)

Section Algorithm.
Context {T : Type} `{numeric T}.

(** [std::max(a, b)]: [(a < b) ? b : a]. *)
Definition std_max (a b : T) : T := if ltT a b then b else a.

(** [std::clamp(v, lo, hi)].  The standard requires [!(hi < lo)] and
    returns [lo] if [v < lo], [hi] if [hi < v], otherwise [v].  Outside that
    precondition the standard gives no result and the libraries differ (see
    [std_clamp_minmax]); there the definition is relied on only at inputs for
    which both formulations return the same value. *)
Definition std_clamp (v lo hi : T) : T :=
  if ltT v lo then lo else if ltT hi v then hi else v.

(** libstdc++ computes [std::min(std::max(v, lo), hi)] instead; the two
    agree whenever the precondition holds.  For [hi < lo] this one returns
    [hi] for every [v], the other one [lo] for [v < lo]. *)
Definition std_min (a b : T) : T := if ltT b a then b else a.
Definition std_clamp_minmax (v lo hi : T) : T := std_min (std_max v lo) hi.
End Algorithm.

(* ------------------------------------------------------------------ *)
(** ** Integral instantiations: [int] and [unsigned] *)

Inductive integral : Set := int | unsigned.

(** A value of the integral type [k], as the integer it denotes. *)
Definition ival (k : integral) : Type := Z.

Definition T_MIN (k : integral) : Z :=
  match k with int => - 2 ^ 31 | unsigned => 0 end.
Definition T_MAX (k : integral) : Z :=
  match k with int => 2 ^ 31 - 1 | unsigned => 2 ^ 32 - 1 end.

Definition representable (k : integral) (z : Z) : Prop :=
  T_MIN k <= z <= T_MAX k.

(** Reduction of a mathematical result to the 32 bits of the type.  For
    [unsigned] this is the arithmetic modulo 2^32 of the language.  For [int]
    the language defines the result only when it is representable, and then
    [wrap32] is the identity ([wrap32_id]); the value it gives otherwise
    stands for no behaviour of the program, and the statements that depend on
    the result of an operation at [int] assume that it is representable. *)
Definition wrap32 (k : integral) (z : Z) : Z :=
  match k with
  | int => (z + 2 ^ 31) mod 2 ^ 32 - 2 ^ 31
  | unsigned => z mod 2 ^ 32
  end.

(** Modelled from the spec: [util::math::modulo] of [math.hpp], which is not
    among the sources.  Section 6 gives its contract: for [length > 0] the
    result [r] satisfies [r = x - k * length] for an integer [k] and
    [0 <= r < length] (floored, not truncating). *)
Definition floored_modulo (x length : Z) : Z := x mod length.

#[export] Instance integral_numeric (k : integral) : numeric (ival k) := {
  is_integral_v := true;
  static_cast := fun z => wrap32 k z;
  ltT := Z.ltb;
  leT := Z.leb;
  eqT := Z.eqb;
  addT := fun a b => wrap32 k (a + b);
  subT := fun a b => wrap32 k (a - b);
  mulT := fun a b => wrap32 k (a * b);
  modulo := floored_modulo
}.

#[export] Instance integral_float_castable (k : integral) : float_castable (ival k) :=
  float_of_Z.

(* ------------------------------------------------------------------ *)
(** ** The floating-point instantiation: [float] *)

(** Modelled from the spec: the overload of [util::math::modulo] for
    [float] ([math.hpp] is not among the sources).  Section 6 gives the
    contract [r = x - k * length] for an integer [k] with [0 <= r < length],
    for [length > 0]; on two finite numbers that [r] is a binary32 number,
    computed here on the mantissas brought to one exponent.  Outside the
    contract the result is NaN.  It is used for closed examples only: the
    statements about [float] are proved for every function in its place. *)
Definition float_floored_modulo (x length : float) : float :=
  match x, length with
  | S754_finite sx mx ex, S754_finite false ml el =>
      let ez := Z.min ex el in
      let X := cond_Zopp sx (Zpos (fst (shl_align mx ex ez))) in
      let L := Zpos (fst (shl_align ml el ez)) in
      binary_normalize float_prec float_emax (X mod L) ez false
  | S754_zero _, S754_finite false _ _ => S754_zero false
  | _, _ => S754_nan
  end.

(** [T = float]: the comparisons and the arithmetic of binary32;
    [static_cast<float>] of an [int] template argument rounds to nearest.
    [util::math::modulo] ([math.hpp]) is not among the sources: the instance
    takes its overload for [float] as a parameter, and what is proved at
    [float] holds whatever that function computes. *)
Definition float_numeric (float_modulo : float -> float -> float) : numeric float := {|
  is_integral_v := false;
  static_cast := float_of_Z;
  ltT := SFltb;
  leT := SFleb;
  eqT := SFeqb;
  addT := SFadd float_prec float_emax;
  subT := SFsub float_prec float_emax;
  mulT := SFmul float_prec float_emax;
  modulo := float_modulo
|}.


(** How a member function hands back its result: a fresh object returned by
    value, or a reference to the receiver ([return *this;]). *)
Inductive returned (A : Type) : Type :=
| by_value (a : A)
| ref_this.
Arguments by_value {A} a.
Arguments ref_this {A}.

(** Reading through a returned result once the call is over. *)
Definition read_returned {A : Type} (r : returned A) (this_after : A) : A :=
  match r with
  | by_value a => a
  | ref_this => this_after
  end.

(* ================================================================== *)
(** * [template<numeric T, int min, int max, bool wrap> struct StaticallyBounded] *)
(* ================================================================== *)

Module StaticallyBounded.

(** The bounds and the wrap flag are part of the type. *)
Record t {T : Type} (min max : Z) (wrap : bool) : Type := Build { value_ : T }.
Arguments Build {T} min max wrap value_.
Arguments value_ {T min max wrap} _.

Section Template.
Context {T : Type} `{numeric T}.
Variables (min max : Z) (wrap : bool).

Let self : Type := @t T min max wrap.

(** [StaticallyBounded(T init_val)]. *)
Definition make (init_val : T) : self :=
  Build min max wrap (std_clamp init_val (static_cast min) (static_cast max)).

(** [void operator=(const T in)]. *)
Definition assign (this : self) (in_ : T) : self :=
  if wrap then
    let min_ := static_cast min in
    let max_ := static_cast max in
    if ltT in_ min_ || gtT in_ max_ then
      let length := subT (static_cast max) (static_cast min) in
      let length := if is_integral_v then addT length (static_cast 1) else length in
      Build min max wrap (addT min_ (modulo (subT in_ min_) length))
    else Build min max wrap in_
  else Build min max wrap (std_clamp in_ (static_cast min) (static_cast max)).

(** [operator+=], [-=], [*=]: [operator=(this->value_ op in); return *this;]
    ([operator/=] follows the same pattern and is left out.) *)
Definition add_assign (this : self) (in_ : T) : returned self * self :=
  (ref_this, assign this (addT (value_ this) in_)).
Definition sub_assign (this : self) (in_ : T) : returned self * self :=
  (ref_this, assign this (subT (value_ this) in_)).
Definition mul_assign (this : self) (in_ : T) : returned self * self :=
  (ref_this, assign this (mulT (value_ this) in_)).

(** [StaticallyBounded operator++()]:
    [auto tmp = *this; operator=(this->value_ + static_cast<T>(1)); return tmp;] *)
Definition prefix_inc (this : self) : returned self * self :=
  let tmp := this in
  (by_value tmp, assign this (addT (value_ this) (static_cast 1))).

(** [StaticallyBounded& operator++(int)]:
    [operator=(this->value_ + static_cast<T>(1)); return *this;] *)
Definition postfix_inc (this : self) : returned self * self :=
  (ref_this, assign this (addT (value_ this) (static_cast 1))).

(** [StaticallyBounded operator--()]. *)
Definition prefix_dec (this : self) : returned self * self :=
  let tmp := this in
  (by_value tmp, assign this (subT (value_ this) (static_cast 1))).

(** [StaticallyBounded& operator--(int)]. *)
Definition postfix_dec (this : self) : returned self * self :=
  (ref_this, assign this (subT (value_ this) (static_cast 1))).

(** [operator T() const noexcept]. *)
Definition to_T (this : self) : T := value_ this.

(** [float normalize() const]:
    [static_cast<float>(value_ - min) / static_cast<float>(max - min)].
    [max - min] is a subtraction of two [int] constants. *)
Definition normalize `{float_castable T} (this : self) : float :=
  float_div (to_float (subT (value_ this) (static_cast min)))
            (float_of_Z (wrap32 int (max - min))).

(** [operator==] and [operator!=] on two objects of one instantiated type. *)
Definition operator_eq (lhs rhs : self) : bool := eqT (to_T lhs) (to_T rhs).
Definition operator_ne (lhs rhs : self) : bool := neT (to_T lhs) (to_T rhs).
End Template.

Arguments assign {T _ min max wrap} this in_.
Arguments add_assign {T _ min max wrap} this in_.
Arguments sub_assign {T _ min max wrap} this in_.
Arguments mul_assign {T _ min max wrap} this in_.
Arguments prefix_inc {T _ min max wrap} this.
Arguments postfix_inc {T _ min max wrap} this.
Arguments prefix_dec {T _ min max wrap} this.
Arguments postfix_dec {T _ min max wrap} this.
Arguments to_T {T min max wrap} this.
Arguments normalize {T _ min max wrap _} this.
Arguments operator_eq {T _ min max wrap} lhs rhs.
Arguments operator_ne {T _ min max wrap} lhs rhs.
End StaticallyBounded.

(* ================================================================== *)
(** * [template<numeric T, bool wrap> struct DynamicallyBounded] *)
(* ================================================================== *)

Module DynamicallyBounded.

(** The wrap flag is part of the type; the bounds are fields. *)
Record t {T : Type} (wrap : bool) : Type := Build { value_ : T; min_ : T; max_ : T }.
Arguments Build {T} wrap value_ min_ max_.
Arguments value_ {T wrap} _.
Arguments min_ {T wrap} _.
Arguments max_ {T wrap} _.

Section Template.
Context {T : Type} `{numeric T}.
Variable wrap : bool.

Let self : Type := @t T wrap.

(** [DynamicallyBounded(T init_val, T min, T max) : min_(min), max_(max)]
    with body [max_ = std::max(min_, max_); value_ = std::clamp(init_val, min, max);]:
    the clamp reads the constructor's parameters [min] and [max]. *)
Definition make (init_val min max : T) : self :=
  let min_0 := min in
  let max_0 := max in
  let max_1 := std_max min_0 max_0 in
  Build wrap (std_clamp init_val min max) min_0 max_1.

(** [T min() const], [T max() const], [operator T() const]. *)
Definition get_min (this : self) : T := min_ this.
Definition get_max (this : self) : T := max_ this.
Definition to_T (this : self) : T := value_ this.

(** [void min(const T new_min) { if (new_min <= max_) min_ = new_min; }] *)
Definition set_min (this : self) (new_min : T) : self :=
  if leT new_min (max_ this)
  then Build wrap (value_ this) new_min (max_ this)
  else this.

(** [void max(const T new_max) { if (min_ <= new_max) max_ = new_max; }] *)
Definition set_max (this : self) (new_max : T) : self :=
  if leT (min_ this) new_max
  then Build wrap (value_ this) (min_ this) new_max
  else this.

(** [void operator=(const T in)]. *)
Definition assign (this : self) (in_ : T) : self :=
  let store v := Build wrap v (min_ this) (max_ this) in
  if wrap then
    if ltT in_ (min_ this) || gtT in_ (max_ this) then
      let length := subT (get_max this) (get_min this) in
      let length := if is_integral_v then addT length (static_cast 1) else length in
      store (addT (min_ this) (modulo (subT in_ (min_ this)) length))
    else store in_
  else store (std_clamp in_ (min_ this) (max_ this)).

(** [operator+=], [-=], [*=], [++], [--]: all return [void]. *)
Definition add_assign (this : self) (in_ : T) : self := assign this (addT (value_ this) in_).
Definition sub_assign (this : self) (in_ : T) : self := assign this (subT (value_ this) in_).
Definition mul_assign (this : self) (in_ : T) : self := assign this (mulT (value_ this) in_).
Definition inc (this : self) : self := assign this (addT (value_ this) (static_cast 1)).
Definition dec (this : self) : self := assign this (subT (value_ this) (static_cast 1)).

(** [float normalize() const]:
    [static_cast<float>(value_ - min_) / static_cast<float>(max_ - min_)]. *)
Definition normalize `{float_castable T} (this : self) : float :=
  float_div (to_float (subT (value_ this) (min_ this)))
            (to_float (subT (max_ this) (min_ this))).

(** [operator==] and [operator!=]. *)
Definition operator_eq (lhs rhs : self) : bool :=
  eqT (to_T lhs) (to_T rhs) && eqT (get_min lhs) (get_min rhs)
  && eqT (get_max lhs) (get_max rhs).
Definition operator_ne (lhs rhs : self) : bool :=
  neT (to_T lhs) (to_T rhs) || neT (get_min lhs) (get_min rhs)
  || neT (get_max lhs) (get_max rhs).

(** A call of one of the two bound setters, and a sequence of such calls. *)
Inductive setter_call : Type :=
| call_set_min (new_min : T)
| call_set_max (new_max : T).

Definition run_setter (this : self) (c : setter_call) : self :=
  match c with
  | call_set_min new_min => set_min this new_min
  | call_set_max new_max => set_max this new_max
  end.

Definition run_setters (this : self) (cs : list setter_call) : self :=
  fold_left run_setter cs this.
End Template.

Arguments get_min {T wrap} this.
Arguments get_max {T wrap} this.
Arguments to_T {T wrap} this.
Arguments set_min {T _ wrap} this new_min.
Arguments set_max {T _ wrap} this new_max.
Arguments assign {T _ wrap} this in_.
Arguments add_assign {T _ wrap} this in_.
Arguments sub_assign {T _ wrap} this in_.
Arguments mul_assign {T _ wrap} this in_.
Arguments inc {T _ wrap} this.
Arguments dec {T _ wrap} this.
Arguments normalize {T _ wrap _} this.
Arguments operator_eq {T _ wrap} lhs rhs.
Arguments operator_ne {T _ wrap} lhs rhs.
Arguments setter_call T : clear implicits.
Arguments call_set_min {T} new_min.
Arguments call_set_max {T} new_max.
Arguments run_setter {T _ wrap} this c.
Arguments run_setters {T _ wrap} this cs.
End DynamicallyBounded.

Module SB := StaticallyBounded.
Module DB := DynamicallyBounded.

(** The constructor of [DynamicallyBounded] as it runs on libstdc++, whose
    [std::clamp] is [std::min(std::max(v, lo), hi)]. *)
Definition dynamic_make_minmax {T : Type} `{numeric T} (wrap : bool)
    (init_val min max : T) : DB.t wrap :=
  let min_0 := min in
  let max_0 := max in
  let max_1 := std_max min_0 max_0 in
  DB.Build wrap (std_clamp_minmax init_val min max) min_0 max_1.

(** The objects a program can hold: built by the constructor and changed by
    the setters and by [operator=], through which every other mutator goes. *)
Inductive reachable {T : Type} `{numeric T} {wrap : bool} : DB.t wrap -> Prop :=
| reachable_make (init_val min max : T) :
    reachable (DB.make wrap init_val min max)
| reachable_set_min (this : DB.t wrap) (new_min : T) :
    reachable this -> reachable (DB.set_min this new_min)
| reachable_set_max (this : DB.t wrap) (new_max : T) :
    reachable this -> reachable (DB.set_max this new_max)
| reachable_assign (this : DB.t wrap) (in_ : T) :
    reachable this -> reachable (DB.assign this in_).

(* ================================================================== *)
(** * Either variant *)
(* ================================================================== *)

(** [stores_on_assign wrap lo hi v stored]: on an object of either template
    whose bounds are [lo] and [hi] (the casts of the template arguments for a
    [StaticallyBounded], the fields for a [DynamicallyBounded]),
    [operator=(v)] leaves [stored] as the value. *)
Inductive stores_on_assign {T : Type} `{numeric T} (wrap : bool) (lo hi v : T) : T -> Prop :=
| stores_static (min max : Z) (this : StaticallyBounded.t min max wrap) :
    static_cast min = lo -> static_cast max = hi ->
    stores_on_assign wrap lo hi v
      (StaticallyBounded.value_ (StaticallyBounded.assign this v))
| stores_dynamic (this : DynamicallyBounded.t wrap) :
    DynamicallyBounded.min_ this = lo -> DynamicallyBounded.max_ this = hi ->
    stores_on_assign wrap lo hi v
      (DynamicallyBounded.value_ (DynamicallyBounded.assign this v)).

(* ================================================================== *)
(** * Calls in sequence *)
(* ================================================================== *)

(** The mutators that end in [operator=]: [=], [+=], [-=], [*=], [++], [--]. *)
Inductive write (T : Type) : Type :=
| w_assign (in_ : T)
| w_add (in_ : T)
| w_sub (in_ : T)
| w_mul (in_ : T)
| w_inc
| w_dec.
Arguments w_assign {T} in_.
Arguments w_add {T} in_.
Arguments w_sub {T} in_.
Arguments w_mul {T} in_.
Arguments w_inc {T}.
Arguments w_dec {T}.

(** The receiver after one mutator call. *)
Definition dynamic_write {T : Type} `{numeric T} {wrap : bool}
    (this : DB.t wrap) (w : write T) : DB.t wrap :=
  match w with
  | w_assign in_ => DB.assign this in_
  | w_add in_ => DB.add_assign this in_
  | w_sub in_ => DB.sub_assign this in_
  | w_mul in_ => DB.mul_assign this in_
  | w_inc => DB.inc this
  | w_dec => DB.dec this
  end.

Definition static_write {T : Type} `{numeric T} {min max : Z} {wrap : bool}
    (this : SB.t min max wrap) (w : write T) : SB.t min max wrap :=
  match w with
  | w_assign in_ => SB.assign this in_
  | w_add in_ => snd (SB.add_assign this in_)
  | w_sub in_ => snd (SB.sub_assign this in_)
  | w_mul in_ => snd (SB.mul_assign this in_)
  | w_inc => snd (SB.prefix_inc this)
  | w_dec => snd (SB.prefix_dec this)
  end.

Definition dynamic_writes {T : Type} `{numeric T} {wrap : bool}
    (this : DB.t wrap) (ws : list (write T)) : DB.t wrap :=
  fold_left dynamic_write ws this.

Definition static_writes {T : Type} `{numeric T} {min max : Z} {wrap : bool}
    (this : SB.t min max wrap) (ws : list (write T)) : SB.t min max wrap :=
  fold_left static_write ws this.

(** The value a mutator hands to [operator=]. *)
Definition write_argument {T : Type} `{numeric T} (value : T) (w : write T) : T :=
  match w with
  | w_assign in_ => in_
  | w_add in_ => addT value in_
  | w_sub in_ => subT value in_
  | w_mul in_ => mulT value in_
  | w_inc => addT value (static_cast 1)
  | w_dec => subT value (static_cast 1)
  end.

(** The same value in the integers, before it is reduced to the type. *)
Definition write_result (value : Z) (w : write Z) : Z :=
  match w with
  | w_assign in_ => in_
  | w_add in_ => value + in_
  | w_sub in_ => value - in_
  | w_mul in_ => value * in_
  | w_inc => value + 1
  | w_dec => value - 1
  end.

(** The arithmetic of a mutator is defined: always at [unsigned], and at
    [int] when the result is representable. *)
Definition write_defined (k : integral) (value : ival k) (w : write (ival k)) : Prop :=
  match k with
  | unsigned => True
  | int => representable int (write_result value w)
  end.

(* ================================================================== *)
(** * Division at an integral type *)
(* ================================================================== *)

(** [a / b] on [int] and [unsigned]: the quotient truncated toward zero.  The
    language gives no result when [b] is zero or when the quotient is not
    representable ([INT_MIN / -1]). *)
Definition integral_div (k : integral) (a b : ival k) : option (ival k) :=
  if b =? 0 then None
  else
    let q := Z.quot a b in
    if (T_MIN k <=? q) && (q <=? T_MAX k) then Some q else None.

(** [operator/=] of [DynamicallyBounded]: [operator=(this->value_ / in);] *)
Definition dynamic_div_assign {k : integral} {wrap : bool}
    (this : @DB.t (ival k) wrap) (in_ : ival k) : option (@DB.t (ival k) wrap) :=
  match integral_div k (DB.value_ this) in_ with
  | Some q => Some (DB.assign this q)
  | None => None
  end.

(** [operator/=] of [StaticallyBounded]:
    [operator=(this->value_ / in); return *this;] *)
Definition static_div_assign {k : integral} {min max : Z} {wrap : bool}
    (this : @SB.t (ival k) min max wrap) (in_ : ival k)
  : option (returned (@SB.t (ival k) min max wrap) * @SB.t (ival k) min max wrap) :=
  match integral_div k (SB.value_ this) in_ with
  | Some q => Some (ref_this, SB.assign this q)
  | None => None
  end.

(* ================================================================== *)
(** * Approximate comparison of floats ([src/testing.t.hpp]) *)
(* ================================================================== *)

(** [a - b] and [std::abs] on [float], evaluated in binary32. *)
Definition float_sub : float -> float -> float := SFsub float_prec float_emax.
Definition float_abs : float -> float := SFabs.

(** [float_cmp(margin)]: the closure
    [[margin](float a, float b) { return std::abs(a - b) < margin; }]. *)
Definition float_cmp (margin : float) : float -> float -> bool :=
  fun a b => float_lt (float_abs (float_sub a b)) margin.

(** Zeros and finite numbers, as opposed to the infinities and NaN. *)
Definition is_finite (x : float) : bool :=
  match x with
  | S754_zero _ | S754_finite _ _ _ => true
  | S754_infinity _ | S754_nan => false
  end.

Module approx.

Record t : Type := Build { value_ : float; margin_ : float }.

(** [float margin_ = 0.0001;]: the literal as a [float],
    13743895 * 2^-37 = 0.0000999999974737875. *)
Definition default_margin : float := S754_finite false 13743895 (-37).

(** [approx(float v) noexcept : value_(v) {}] *)
Definition make (v : float) : t := Build v default_margin.

(** [approx& margin(float m) { margin_ = m; return *this; }] *)
Definition margin (this : t) (m : float) : t := Build (value_ this) m.

(** [bool operator==(float rhs) const]:
    [return std::abs(value_ - rhs) < margin_;] *)
Definition operator_eq (this : t) (rhs : float) : bool :=
  float_lt (float_abs (float_sub (value_ this) rhs)) (margin_ this).

(** [friend bool operator==(float lhs, const approx& rhs) { return (rhs == lhs); }] *)
Definition friend_operator_eq (lhs : float) (rhs : t) : bool := operator_eq rhs lhs.

(** [bool operator!=(float rhs) const { return !( *this == rhs); }] *)
Definition operator_ne (this : t) (rhs : float) : bool := negb (operator_eq this rhs).

(** [friend bool operator!=(float lhs, const approx& rhs) { return rhs != lhs; }] *)
Definition friend_operator_ne (lhs : float) (rhs : t) : bool := operator_ne rhs lhs.

End approx.

(* ================================================================== *)
(** * Printing a vector ([src/testing.t.hpp]) *)
(* ================================================================== *)

(** [str.size() - 2]: a subtraction in [size_t], taken as 64 bits. *)
Definition size_t_sub (a b : Z) : Z := (a - b) mod 2 ^ 64.

(** [std::string::resize(n)]: the first [n] characters, or the string padded
    with NUL characters when [n] is above the size. *)
Definition resize (str : string) (n : Z) : string :=
  let size := Z.of_nat (String.length str) in
  if n <=? size then String.substring 0 (Z.to_nat n) str
  else String.append str
         (string_of_list_ascii (repeat Ascii.zero (Z.to_nat (n - size)))).

(** The conversion of the result of [std::string::c_str()] to a
    [doctest::String]: the characters before the first NUL. *)
Fixpoint c_str (s : string) : string :=
  match s with
  | EmptyString => EmptyString
  | String c s' =>
      if Ascii.eqb c Ascii.zero then EmptyString else String c (c_str s')
  end.

Module StringMaker_vector.

(** [StringMaker<std::vector<T, Args...>>::convert].  [toString v] is the
    text that [o << toString(v)] appends to the stream. *)
Definition convert {T : Type} (toString : T -> string) (value : list T) : string :=
  match value with
  | [] => "{}"%string
  | _ :: _ =>
      let o :=
        fold_left (fun o v => String.append (String.append o (toString v)) ", ")
          value "{"%string in
      let str := o in
      let str := resize str (size_t_sub (Z.of_nat (String.length str)) 2) in
      c_str (String.append str "}")
  end.

End StringMaker_vector.

(* ================================================================== *)
(** * Looking for a debugger ([src/testing.t.hpp]) *)
(* ================================================================== *)

(** [isspace] and [isdigit] of [<ctype.h>] in the "C" locale, on a byte of
    the ASCII range. *)
Definition isspace (c : ascii) : bool :=
  let n := nat_of_ascii c in
  Nat.eqb n 32 || (Nat.leb 9 n && Nat.leb n 13).
Definition isdigit (c : ascii) : bool :=
  let n := nat_of_ascii c in
  Nat.leb 48 n && Nat.leb n 57.

Fixpoint starts_with (needle hay : list ascii) : bool :=
  match needle, hay with
  | [], _ => true
  | _ :: _, [] => false
  | n :: needle', h :: hay' => Ascii.eqb n h && starts_with needle' hay'
  end.

(** [strstr(hay, needle)]: the text from the first occurrence of [needle] in
    the C string [hay], which ends at its first NUL; [None] is the null
    pointer. *)
Fixpoint strstr (hay needle : list ascii) : option (list ascii) :=
  if starts_with needle hay then Some hay
  else
    match hay with
    | [] => None
    | c :: hay' => if Ascii.eqb c Ascii.zero then None else strstr hay' needle
    end.

(** [constexpr char tracerPidString[] = "TracerPid:";] *)
Definition tracerPidString : list ascii := list_ascii_of_string "TracerPid:".

(** What [::open] and [::read] on [/proc/self/status] deliver: a failure of
    either, or the bytes read, at most [sizeof(buf) - 1 = 4095] of them. *)
Inductive proc_self_status : Type :=
| open_fails
| read_fails
| read_returns (bytes : list ascii).

(** The loop over [characterPtr]: white space is skipped, the first other
    character decides; the loop ends with the terminating NUL at the
    latest. *)
Fixpoint first_after_spaces (l : list ascii) : bool :=
  match l with
  | [] => false
  | c :: l' =>
      if isspace c then first_after_spaces l'
      else isdigit c && negb (Ascii.eqb c "0")
  end.

(** [debuggerIsAttached()].  [buf] is the bytes read followed by the NUL
    that [buf[num_read] = '\0'] writes. *)
Definition debuggerIsAttached (status : proc_self_status) : bool :=
  match status with
  | open_fails => false
  | read_fails => false
  | read_returns bytes =>
      let num_read := List.length bytes in
      if Nat.leb num_read 0 then false
      else
        let buf := bytes ++ [Ascii.zero] in
        match strstr buf tracerPidString with
        | None => false
        | Some tracer_pid_ptr =>
            first_after_spaces (skipn (List.length tracerPidString) tracer_pid_ptr)
        end
  end.

(* ================================================================== *)
(** * Facts about the numeric types *)
(* ================================================================== *)

Notation "a '<T' b" := (ltT a b = true) (at level 70, no associativity).
Notation "a '<=T' b" := (leT a b = true) (at level 70, no associativity).

Lemma wrap32_representable (k : integral) (z : Z) : representable k (wrap32 k z).
Proof.
  unfold representable; destruct k; cbn [wrap32 T_MIN T_MAX].
  - pose proof (Z.mod_pos_bound (z + 2 ^ 31) (2 ^ 32) ltac:(lia)); lia.
  - pose proof (Z.mod_pos_bound z (2 ^ 32) ltac:(lia)); lia.
Qed.

Lemma wrap32_id (k : integral) (z : Z) : representable k z -> wrap32 k z = z.
Proof.
  unfold representable; destruct k; cbn [wrap32 T_MIN T_MAX]; intros Hz.
  - rewrite Z.mod_small by lia; lia.
  - apply Z.mod_small; lia.
Qed.

Lemma representable_small (k : integral) (z : Z) : 0 <= z <= 1000 -> representable k z.
Proof. intros Hz; unfold representable; destruct k; cbn [T_MIN T_MAX]; lia. Qed.

(** Template arguments that are representable in [T] keep their order under
    [static_cast<T>]. *)
Lemma static_cast_ordered (k : integral) (min max : Z) :
  representable k min -> representable k max -> min <= max ->
  leT (T := ival k) (static_cast min) (static_cast max) = true.
Proof.
  intros Hmin Hmax Hle; cbn [leT static_cast integral_numeric].
  rewrite !wrap32_id by assumption; apply Z.leb_le, Hle.
Qed.

(** The contract of section 6 of the spec, for the modelled [modulo]. *)
Lemma floored_modulo_contract (x length : Z) :
  0 < length ->
  0 <= floored_modulo x length < length /\
  exists k : Z, floored_modulo x length = x - k * length.
Proof.
  intros Hl; unfold floored_modulo; split.
  - apply Z.mod_pos_bound; exact Hl.
  - exists (x / length). pose proof (Z.div_mod x length ltac:(lia)); lia.
Qed.

#[export] Instance integral_order (k : integral) : numeric_order (ival k).
Proof.
  split; unfold ival; cbn [ltT leT eqT integral_numeric]; intros.
  - apply Z.ltb_irrefl.
  - rewrite Z.ltb_lt in *; lia.
  - rewrite Z.ltb_ge in *; lia.
  - apply Z.leb_antisym.
  - apply Z.eqb_eq.
Qed.

Section OrderFacts.
Context {T : Type} `{numeric_order T}.

Lemma leT_true_iff (a b : T) : a <=T b <-> ltT b a = false.
Proof. rewrite leT_ltT, negb_true_iff; reflexivity. Qed.

Lemma leT_refl (a : T) : a <=T a.
Proof. apply leT_true_iff, ltT_irrefl. Qed.

Lemma ltT_asym (a b : T) : a <T b -> ltT b a = false.
Proof.
  intros Hab; destruct (ltT b a) eqn:Hba; [|reflexivity].
  rewrite <- (ltT_irrefl a); symmetry; eapply ltT_trans; eassumption.
Qed.

Lemma ltT_leT (a b : T) : a <T b -> a <=T b.
Proof. intros Hab; apply leT_true_iff, ltT_asym, Hab. Qed.

Lemma leT_ltT_trans (a b c : T) : a <=T b -> b <T c -> a <T c.
Proof.
  intros Hab Hbc; apply leT_true_iff in Hab.
  destruct (ltT a b) eqn:Hlt.
  - eapply ltT_trans; eassumption.
  - rewrite (ltT_total a b Hlt Hab); exact Hbc.
Qed.


(** [std::max] returns an upper bound of its first argument. *)
Lemma std_max_ge_l (a b : T) : a <=T std_max a b.
Proof.
  unfold std_max; destruct (ltT a b) eqn:Hab.
  - apply ltT_leT, Hab.
  - apply leT_refl.
Qed.

Lemma std_max_ordered (a b : T) : a <=T b -> std_max a b = b.
Proof.
  intros Hab; apply leT_true_iff in Hab; unfold std_max.
  destruct (ltT a b) eqn:Hlt; [reflexivity|].
  apply ltT_total; assumption.
Qed.

(** [std::clamp] within its precondition [lo <= hi]. *)
Lemma std_clamp_bounds (v lo hi : T) :
  lo <=T hi -> lo <=T std_clamp v lo hi /\ std_clamp v lo hi <=T hi.
Proof.
  intros Hlh; unfold std_clamp.
  destruct (ltT v lo) eqn:Hlo; [split; [apply leT_refl | exact Hlh]|].
  destruct (ltT hi v) eqn:Hhi; [split; [exact Hlh | apply leT_refl]|].
  split; apply leT_true_iff; assumption.
Qed.

Lemma std_clamp_inside (v lo hi : T) :
  lo <=T v -> v <=T hi -> std_clamp v lo hi = v.
Proof.
  intros Hlo Hhi; apply leT_true_iff in Hlo, Hhi.
  unfold std_clamp; rewrite Hlo, Hhi; reflexivity.
Qed.

Lemma std_clamp_below (v lo hi : T) : v <T lo -> std_clamp v lo hi = lo.
Proof. intros Hlo; unfold std_clamp; rewrite Hlo; reflexivity. Qed.

Lemma std_clamp_above (v lo hi : T) :
  lo <=T hi -> hi <T v -> std_clamp v lo hi = hi.
Proof.
  intros Hlh Hhi; unfold std_clamp.
  rewrite (ltT_asym lo v (leT_ltT_trans lo hi v Hlh Hhi)), Hhi; reflexivity.
Qed.

(** Both formulations of [std::clamp] agree within the precondition. *)
Lemma std_clamp_minmax_agree (v lo hi : T) :
  lo <=T hi -> std_clamp_minmax v lo hi = std_clamp v lo hi.
Proof.
  intros Hlh; unfold std_clamp_minmax, std_min, std_max, std_clamp.
  destruct (ltT v lo) eqn:Hlo.
  - apply leT_true_iff in Hlh; rewrite Hlh; reflexivity.
  - reflexivity.
Qed.

(** Outside the precondition the second formulation returns [hi] for every [v]. *)
Lemma std_clamp_minmax_inverted (v lo hi : T) :
  hi <T lo -> std_clamp_minmax v lo hi = hi.
Proof.
  intros Hlt; unfold std_clamp_minmax, std_min, std_max.
  destruct (ltT v lo) eqn:Hv; [rewrite Hlt; reflexivity|].
  assert (Hhv : hi <T v).
  { destruct (ltT lo v) eqn:Hlv.
    - eapply ltT_trans; eassumption.
    - rewrite (ltT_total v lo Hv Hlv); exact Hlt. }
  rewrite Hhv; reflexivity.
Qed.
End OrderFacts.

(* ================================================================== *)
(** * The order of [float] *)
(* ================================================================== *)

Lemma SFcompare_antisym (a b : float) :
  SFcompare b a = option_map CompOpp (SFcompare a b).
Proof.
  destruct a as [sa|sa| |sa ma ea], b as [sb|sb| |sb mb eb]; cbn;
    try reflexivity; try (destruct sa, sb; reflexivity);
    try (destruct sa; reflexivity); try (destruct sb; reflexivity).
  change (Pos.compare_cont Eq mb ma) with (Pos.compare mb ma).
  change (Pos.compare_cont Eq ma mb) with (Pos.compare ma mb).
  rewrite (Z.compare_antisym ea eb), (Pos.compare_antisym ma mb).
  destruct sa, sb; cbn; try reflexivity;
    destruct (ea ?= eb); cbn; try reflexivity;
    destruct (Pos.compare ma mb); reflexivity.
Qed.

Lemma SFcompare_number (a b : float) :
  is_nan a = false -> is_nan b = false -> exists c, SFcompare a b = Some c.
Proof. destruct a, b; try discriminate; intros _ _; cbn; eauto. Qed.

Lemma SFleb_SFltb (a b : float) :
  is_nan a = false -> is_nan b = false -> SFleb a b = negb (SFltb b a).
Proof.
  intros Ha Hb; unfold SFleb, SFltb; rewrite (SFcompare_antisym a b).
  destruct (SFcompare_number a b Ha Hb) as [c ->]; destruct c; reflexivity.
Qed.

Lemma SFltb_asym (a b : float) : SFltb a b = true -> SFltb b a = false.
Proof.
  unfold SFltb; rewrite (SFcompare_antisym a b).
  destruct (SFcompare a b) as [[| |]|]; try discriminate; reflexivity.
Qed.

Lemma lex_spec (e1 : Z) (m1 : positive) (e2 : Z) (m2 : positive) :
  (lex e1 m1 e2 m2 = Lt <-> e1 < e2 \/ (e1 = e2 /\ (m1 < m2)%positive)) /\
  (lex e1 m1 e2 m2 = Eq <-> e1 = e2 /\ m1 = m2) /\
  (lex e1 m1 e2 m2 = Gt <-> e2 < e1 \/ (e1 = e2 /\ (m2 < m1)%positive)).
Proof.
  unfold lex.
  destruct (Z.compare_spec e1 e2) as [E|E|E];
    [destruct (Pos.compare_spec m1 m2) as [M|M|M]| |];
    (split; [|split]); split; intros ?; try discriminate; try reflexivity; lia.
Qed.

Lemma SFcompare_finite (s1 s2 : bool) (m1 m2 : positive) (e1 e2 : Z) :
  SFcompare (S754_finite s1 m1 e1) (S754_finite s2 m2 e2)
  = Some match s1, s2 with
         | true, false => Lt
         | false, true => Gt
         | false, false => lex e1 m1 e2 m2
         | true, true => CompOpp (lex e1 m1 e2 m2)
         end.
Proof.
  unfold lex; cbn [SFcompare].
  change (Pos.compare_cont Eq m1 m2) with (Pos.compare m1 m2).
  destruct s1, s2; try reflexivity. destruct (e1 ?= e2); reflexivity.
Qed.

Lemma SFleb_SFltb_trans (a b c : float) :
  SFleb a b = true -> SFltb b c = true -> SFltb a c = true.
Proof.
  unfold SFleb, SFltb.
  destruct a as [sa|sa| |sa ma ea], b as [sb|sb| |sb mb eb], c as [sc|sc| |sc mc ec];
    rewrite ?SFcompare_finite;
    try (cbn; discriminate);
    try (destruct sa; cbn; try discriminate; try reflexivity;
         destruct sb; cbn; try discriminate; try reflexivity;
         destruct sc; cbn; try discriminate; reflexivity);
    try (destruct sa, sb; cbn; try discriminate; try reflexivity;
         destruct sc; cbn; try discriminate; reflexivity);
    try (destruct sb, sc; cbn; try discriminate; try reflexivity;
         destruct sa; cbn; try discriminate; reflexivity);
    try (destruct sa, sc; cbn; try discriminate; try reflexivity;
         destruct sb; cbn; try discriminate; reflexivity).
  all: destruct sa, sb, sc; cbn; try discriminate; try reflexivity.
  all: destruct (lex_spec ea ma eb mb) as (L1 & E1 & G1),
         (lex_spec eb mb ec mc) as (L2 & E2 & G2),
         (lex_spec ea ma ec mc) as (L3 & E3 & G3).
  all: destruct (lex ea ma eb mb) eqn:X; cbn; try discriminate; intros _;
       destruct (lex eb mb ec mc) eqn:Y; cbn; try discriminate; intros _;
       destruct (lex ea ma ec mc) eqn:Z0; cbn; try reflexivity; exfalso;
       repeat match goal with
              | H : ?c = ?c <-> _ |- _ => apply proj1 in H; specialize (H eq_refl)
              | H : _ <-> _ |- _ => clear H
              end; lia.
Qed.

Lemma float_is_number_not_nan (x : float) : float_is_number x = true -> is_nan x = false.
Proof.
  unfold float_is_number; intros H; apply andb_true_iff in H.
  destruct H as [H _]; apply negb_true_iff, H.
Qed.

(** The comparisons of [float] on numbers, whatever [modulo] is. *)
Lemma float_weak_order (float_modulo : float -> float -> float) :
  @numeric_weak_order float (float_numeric float_modulo) float_is_number.
Proof.
  split; cbn [ltT leT float_numeric].
  - intros a b Ha Hb; apply SFleb_SFltb; apply float_is_number_not_nan; assumption.
  - apply SFltb_asym.
  - apply SFleb_SFltb_trans.
Qed.


Section WeakOrderFacts.
Context {T : Type} {N : numeric T} {is_number : T -> bool}
        {O : numeric_weak_order T is_number}.

Lemma wo_leT_refl (a : T) : is_number a = true -> a <=T a.
Proof.
  intros Ha; rewrite (wo_leT_ltT a a Ha Ha).
  destruct (ltT a a) eqn:E; [|reflexivity].
  rewrite (wo_ltT_asym a a E) in E; discriminate.
Qed.

(** The constructor of [DynamicallyBounded], given bounds that are
    numbers, leaves bounds that are numbers in order. *)
Lemma weak_make_bounds_ordered (wrap : bool) (init_val min max : T) :
  is_number min = true -> is_number max = true ->
  let b := DB.make wrap init_val min max in
  is_number (DB.min_ b) = true /\ is_number (DB.max_ b) = true /\
  DB.min_ b <=T DB.max_ b.
Proof.
  intros Hmin Hmax; cbn; unfold std_max.
  destruct (ltT min max) eqn:E.
  - split; [exact Hmin|]. split; [exact Hmax|].
    rewrite (wo_leT_ltT min max Hmin Hmax), (wo_ltT_asym min max E); reflexivity.
  - split; [exact Hmin|]. split; [exact Hmin|]. apply wo_leT_refl, Hmin.
Qed.

(** [std::clamp] within its precondition, on numbers. *)
Lemma weak_clamp (v lo hi : T) :
  is_number v = true -> is_number lo = true -> is_number hi = true ->
  lo <=T hi ->
  (lo <=T std_clamp v lo hi /\ std_clamp v lo hi <=T hi) /\
  (lo <=T v -> v <=T hi -> std_clamp v lo hi = v) /\
  (v <T lo -> std_clamp v lo hi = lo) /\
  (hi <T v -> std_clamp v lo hi = hi).
Proof.
  intros Hv Hlo Hhi Hlh; unfold std_clamp.
  split; [|split; [|split]].
  - destruct (ltT v lo) eqn:E1; [split; [apply wo_leT_refl, Hlo | exact Hlh]|].
    destruct (ltT hi v) eqn:E2; [split; [exact Hlh | apply wo_leT_refl, Hhi]|].
    rewrite (wo_leT_ltT lo v Hlo Hv), (wo_leT_ltT v hi Hv Hhi), E1, E2; split; reflexivity.
  - intros H1 H2.
    rewrite (wo_leT_ltT lo v Hlo Hv) in H1; rewrite (wo_leT_ltT v hi Hv Hhi) in H2.
    apply negb_true_iff in H1, H2; rewrite H1, H2; reflexivity.
  - intros ->; reflexivity.
  - intros H1.
    rewrite (wo_ltT_asym lo v (wo_leT_ltT_trans lo hi v Hlh H1)), H1; reflexivity.
Qed.
End WeakOrderFacts.

(* ================================================================== *)
(** * Facts about binary32 *)
(* ================================================================== *)

(** The functions of [SpecFloat] that round a mantissa are followed through
    the number of binary digits of the mantissa. *)

Lemma digits2_pos_succ_cases (p : positive) :
  digits2_pos (Pos.succ p) = digits2_pos p \/
  digits2_pos (Pos.succ p) = Pos.succ (digits2_pos p).
Proof.
  induction p as [p IH|p IH|]; cbn [Pos.succ digits2_pos].
  - destruct IH as [-> | ->]; [left | right]; reflexivity.
  - left; reflexivity.
  - right; reflexivity.
Qed.

Lemma Zdigits2_shr_1 (s : shr_record) :
  0 <= shr_m s ->
  0 <= shr_m (shr_1 s) /\
  Zdigits2 (shr_m (shr_1 s)) = Z.max 0 (Zdigits2 (shr_m s) - 1).
Proof.
  destruct s as [m r b]; cbn [shr_m]; intros Hm.
  destruct m as [|p|p]; [cbn; split; [lia | reflexivity]| |lia].
  destruct p as [p|p|]; cbn [shr_1 shr_m Zdigits2 digits2_pos]; split; lia.
Qed.

Lemma Zdigits2_iter_shr_1 (n : positive) :
  forall s : shr_record,
    0 <= shr_m s ->
    0 <= shr_m (iter_pos shr_1 n s) /\
    Zdigits2 (shr_m (iter_pos shr_1 n s)) = Z.max 0 (Zdigits2 (shr_m s) - Zpos n).
Proof.
  assert (Hd : forall z, 0 <= Zdigits2 z) by (intros [|p|p]; cbn; lia).
  induction n as [n IH|n IH|]; intros s Hs; cbn [iter_pos].
  - destruct (Zdigits2_shr_1 s Hs) as [H1 E1].
    destruct (IH _ H1) as [H2 E2]. destruct (IH _ H2) as [H3 E3].
    split; [exact H3|]. rewrite E3, E2, E1. specialize (Hd (shr_m s)). lia.
  - destruct (IH _ Hs) as [H2 E2]. destruct (IH _ H2) as [H3 E3].
    split; [exact H3|]. rewrite E3, E2. specialize (Hd (shr_m s)). lia.
  - apply Zdigits2_shr_1, Hs.
Qed.

Lemma Zdigits2_pos_iff (z : Z) : 0 <= z -> (0 < Zdigits2 z <-> 0 < z).
Proof. destruct z as [|p|p]; cbn; lia. Qed.

Lemma shr_fexp_exact (m e : Z) :
  0 < m -> -149 <= Zdigits2 m + e - 24 ->
  let r := shr_fexp float_prec float_emax m e loc_Exact in
  0 < shr_m (fst r) /\
  Zdigits2 (shr_m (fst r)) = Z.min (Zdigits2 m) 24 /\
  snd r = e + Z.max 0 (Zdigits2 m - 24).
Proof.
  intros Hm Hd; unfold shr_fexp, shr, fexp, emin, float_prec, float_emax.
  cbn [shr_record_of_loc].
  rewrite Z.max_l by lia.
  replace (Zdigits2 m + e - 24 - e) with (Zdigits2 m - 24) by lia.
  pose proof (proj2 (Zdigits2_pos_iff m ltac:(lia)) Hm) as HD.
  destruct (Zdigits2 m - 24) as [|n|n] eqn:En; cbn [fst snd shr_m].
  - repeat split; lia.
  - destruct (Zdigits2_iter_shr_1 n {| shr_m := m; shr_r := false; shr_s := false |})
      as [H0 E]; [cbn; lia|].
    cbn [shr_m] in E.
    assert (E' : Zdigits2 (shr_m (iter_pos shr_1 n
                   {| shr_m := m; shr_r := false; shr_s := false |})) = 24) by lia.
    split; [apply Zdigits2_pos_iff; [exact H0 | lia]|]. split; lia.
  - repeat split; lia.
Qed.

Lemma round_nearest_even_digits (m : Z) (l : location) :
  0 < m ->
  0 < round_nearest_even m l /\
  (Zdigits2 (round_nearest_even m l) = Zdigits2 m \/
   Zdigits2 (round_nearest_even m l) = Zdigits2 m + 1).
Proof.
  intros Hm.
  assert (Hs : 0 < m + 1 /\ (Zdigits2 (m + 1) = Zdigits2 m \/ Zdigits2 (m + 1) = Zdigits2 m + 1)).
  { destruct m as [|p|p]; try lia. split; [lia|].
    change (Z.pos p + 1) with (Z.pos (p + 1)); rewrite Pos.add_1_r; cbn [Zdigits2].
    destruct (digits2_pos_succ_cases p) as [-> | ->]; [left; reflexivity | right; lia]. }
  unfold round_nearest_even.
  destruct l as [|[| |]]; try (split; [exact Hm | left; reflexivity]); try exact Hs.
  destruct (Z.even m); [split; [exact Hm | left; reflexivity] | exact Hs].
Qed.

Lemma binary_round_aux_finite (m e : Z) :
  0 < m -> -149 <= Zdigits2 m + e - 24 -> e + Z.max 0 (Zdigits2 m - 24) + 1 <= 104 ->
  exists m' e',
    binary_round_aux float_prec float_emax false m e loc_Exact = S754_finite false m' e'.
Proof.
  intros Hm Hlo Hhi; unfold binary_round_aux.
  pose proof (shr_fexp_exact m e Hm Hlo) as H1; cbv zeta in H1.
  destruct (shr_fexp float_prec float_emax m e loc_Exact) as [mrs1 e1].
  cbn [fst snd] in H1; destruct H1 as (P1 & D1 & E1).
  destruct (round_nearest_even_digits (shr_m mrs1) (loc_of_shr_record mrs1) P1) as [P2 D2].
  set (m2 := round_nearest_even (shr_m mrs1) (loc_of_shr_record mrs1)) in *.
  assert (Hlo2 : -149 <= Zdigits2 m2 + e1 - 24) by lia.
  pose proof (shr_fexp_exact m2 e1 P2 Hlo2) as H2; cbv zeta in H2.
  destruct (shr_fexp float_prec float_emax m2 e1 loc_Exact) as [mrs2 e2].
  cbn [fst snd] in H2; destruct H2 as (P3 & D3 & E3).
  destruct (shr_m mrs2) as [|p|p]; try lia.
  assert (Hle : (e2 <=? float_emax - float_prec) = true).
  { apply Z.leb_le; unfold float_emax, float_prec; lia. }
  rewrite Hle; eauto.
Qed.

Lemma digits2_pos_lower (p : positive) : 2 ^ (Zpos (digits2_pos p) - 1) <= Zpos p.
Proof.
  induction p as [p IH|p IH|]; cbn [digits2_pos]; [| |cbn; lia];
    rewrite Pos2Z.inj_succ;
    replace (Z.succ (Z.pos (digits2_pos p)) - 1) with (Z.succ (Z.pos (digits2_pos p) - 1)) by lia;
    rewrite Z.pow_succ_r by lia; lia.
Qed.

Lemma digits2_pos_le (p : positive) (k : Z) :
  Zpos p < 2 ^ k -> Zpos (digits2_pos p) <= k.
Proof.
  intros Hp; destruct (Z.le_gt_cases (Zpos (digits2_pos p)) k) as [H|H]; [exact H|].
  pose proof (digits2_pos_lower p) as Hl.
  assert (0 <= k).
  { destruct (Z.le_gt_cases 0 k); [assumption|].
    rewrite Z.pow_neg_r in Hp by lia; lia. }
  pose proof (Z.pow_le_mono_r 2 k (Zpos (digits2_pos p) - 1) ltac:(lia) ltac:(lia)); lia.
Qed.

Lemma digits2_pos_iter_xO (p d : positive) :
  digits2_pos (Pos.iter xO p d) = (digits2_pos p + d)%positive.
Proof.
  induction d as [|d IH] using Pos.peano_ind.
  - cbn; rewrite Pos.add_1_r; reflexivity.
  - rewrite Pos.iter_succ; cbn [digits2_pos]; rewrite IH, Pos.add_succ_r; reflexivity.
Qed.

(** The conversion of a positive 32-bit integer is a finite positive float. *)
Lemma float_of_Z_finite (n : Z) :
  0 < n < 2 ^ 32 -> exists m e, float_of_Z n = S754_finite false m e.
Proof.
  intros [Hn Hn32]; destruct n as [|p|p]; try lia.
  pose proof (digits2_pos_le p 32 Hn32) as HD.
  unfold float_of_Z, binary_normalize, binary_round, shl_align, fexp, emin,
    float_prec, float_emax.
  rewrite Z.max_l by lia.
  destruct (Z.pos (digits2_pos p) + 0 - 24 - 0) as [|d|d] eqn:Ed.
  - apply binary_round_aux_finite; cbn [Zdigits2]; lia.
  - apply binary_round_aux_finite; cbn [Zdigits2]; lia.
  - apply binary_round_aux_finite; cbn [Zdigits2];
      rewrite ?digits2_pos_iter_xO, ?Pos2Z.inj_add; lia.
Qed.



Lemma binary_round_aux_opp (m e : Z) :
  binary_round_aux float_prec float_emax true m e loc_Exact
  = SFopp (binary_round_aux float_prec float_emax false m e loc_Exact).
Proof.
  unfold binary_round_aux.
  destruct (shr_fexp float_prec float_emax m e loc_Exact) as [mrs1 e1].
  destruct (shr_fexp float_prec float_emax _ e1 loc_Exact) as [mrs2 e2].
  destruct (shr_m mrs2); [reflexivity | | reflexivity].
  destruct (e2 <=? float_emax - float_prec); reflexivity.
Qed.

(** The conversion of a negative 32-bit integer is a finite negative float. *)
Lemma float_of_Z_finite_neg (n : Z) :
  - 2 ^ 32 < n < 0 -> exists m e, float_of_Z n = S754_finite true m e.
Proof.
  intros Hn; destruct n as [|p|p]; try lia.
  destruct (float_of_Z_finite (Z.pos p)) as (m & e & E); [lia|].
  exists m, e; revert E.
  unfold float_of_Z, binary_normalize, binary_round.
  destruct (shl_align p 0 _) as [mz ez].
  rewrite binary_round_aux_opp; intros ->; reflexivity.
Qed.

Lemma float_sub_diag (a : float) :
  is_finite a = true -> float_sub a a = float_zero.
Proof.
  destruct a as [s|s| |s m e]; try discriminate; intros _.
  - destruct s; reflexivity.
  - unfold float_sub; cbn [SFsub]. rewrite Z.sub_diag. reflexivity.
Qed.

Lemma float_sub_finite (a b : float) :
  is_finite (float_sub a b) = true -> is_finite a = true /\ is_finite b = true.
Proof.
  destruct a as [sa|sa| |sa ma ea], b as [sb|sb| |sb mb eb]; cbn;
    try discriminate; try (split; reflexivity);
    try (destruct sa, sb; discriminate); try (destruct sa; discriminate).
Qed.










(* ================================================================== *)
(** * The bounds of a [DynamicallyBounded] *)
(* ================================================================== *)

Section DynamicSetters.
Context {T : Type} `{numeric T}.
Variable wrap : bool.
Implicit Types (this : @DB.t T wrap) (v : T).

Lemma assign_bounds this v :
  DB.min_ (DB.assign this v) = DB.min_ this /\
  DB.max_ (DB.assign this v) = DB.max_ this.
Proof.
  unfold DB.assign; destruct wrap; [destruct (_ || _)|]; split; reflexivity.
Qed.

Lemma set_min_ordered this v :
  DB.min_ this <=T DB.max_ this ->
  DB.min_ (DB.set_min this v) <=T DB.max_ (DB.set_min this v).
Proof.
  intros Hinv; unfold DB.set_min.
  destruct (leT v (DB.max_ this)) eqn:Hle; [exact Hle | exact Hinv].
Qed.

Lemma set_max_ordered this v :
  DB.min_ this <=T DB.max_ this ->
  DB.min_ (DB.set_max this v) <=T DB.max_ (DB.set_max this v).
Proof.
  intros Hinv; unfold DB.set_max.
  destruct (leT (DB.min_ this) v) eqn:Hle; [exact Hle | exact Hinv].
Qed.

Lemma run_setters_ordered (cs : list (DB.setter_call T)) this :
  DB.min_ this <=T DB.max_ this ->
  DB.min_ (DB.run_setters this cs) <=T DB.max_ (DB.run_setters this cs).
Proof.
  unfold DB.run_setters; revert this.
  induction cs as [|c cs IH]; intros this Hinv; [exact Hinv|].
  cbn [fold_left]; apply IH.
  destruct c; [apply set_min_ordered | apply set_max_ordered]; exact Hinv.
Qed.

Lemma set_min_value this v : DB.value_ (DB.set_min this v) = DB.value_ this.
Proof. unfold DB.set_min; destruct (leT _ _); reflexivity. Qed.

Lemma set_max_value this v : DB.value_ (DB.set_max this v) = DB.value_ this.
Proof. unfold DB.set_max; destruct (leT _ _); reflexivity. Qed.

Lemma run_setters_value (cs : list (DB.setter_call T)) this :
  DB.value_ (DB.run_setters this cs) = DB.value_ this.
Proof.
  unfold DB.run_setters; revert this.
  induction cs as [|c cs IH]; intros this; [reflexivity|].
  cbn [fold_left]; rewrite IH.
  destruct c; [apply set_min_value | apply set_max_value].
Qed.
End DynamicSetters.

Section DynamicBounds.
Context {T : Type} `{numeric_order T}.
Variable wrap : bool.

(** The constructor leaves [min_ <= max_], whatever it is given. *)
Lemma make_bounds_ordered (init_val min max : T) :
  DB.min_ (DB.make wrap init_val min max) <=T DB.max_ (DB.make wrap init_val min max).
Proof. apply std_max_ge_l. Qed.

(** Every object a program can hold has its bounds in order. *)
Lemma reachable_bounds_ordered (this : @DB.t T wrap) :
  reachable this -> DB.min_ this <=T DB.max_ this.
Proof.
  induction 1 as [init_val min max | this x _ IH | this x _ IH | this x _ IH].
  - apply make_bounds_ordered.
  - apply set_min_ordered, IH.
  - apply set_max_ordered, IH.
  - destruct (assign_bounds wrap this x) as [-> ->]; exact IH.
Qed.
End DynamicBounds.

(* ================================================================== *)
(** * Construction *)
(* ================================================================== *)

Section Construction.
Context {T : Type} `{numeric_order T}.

(** With bounds in order, both constructors store the clamped initial
    value, whatever the wrap flag. *)
Lemma static_make_clamps (min max : Z) (wrap : bool) (init_val : T) :
  static_cast min <=T static_cast max ->
  let stored := SB.value_ (SB.make min max wrap init_val) in
  (static_cast min <=T stored /\ stored <=T static_cast max) /\
  (init_val <T static_cast min -> stored = static_cast min) /\
  (static_cast max <T init_val -> stored = static_cast max) /\
  (static_cast min <=T init_val -> init_val <=T static_cast max -> stored = init_val).
Proof.
  intros Hlh; cbn; repeat split.
  - apply std_clamp_bounds, Hlh.
  - apply std_clamp_bounds, Hlh.
  - apply std_clamp_below.
  - apply std_clamp_above, Hlh.
  - apply std_clamp_inside.
Qed.

Lemma dynamic_make_clamps (wrap : bool) (init_val min max : T) :
  min <=T max ->
  let b := DB.make wrap init_val min max in
  (DB.min_ b = min /\ DB.max_ b = max) /\
  (min <=T DB.value_ b /\ DB.value_ b <=T max) /\
  (init_val <T min -> DB.value_ b = min) /\
  (max <T init_val -> DB.value_ b = max) /\
  (min <=T init_val -> init_val <=T max -> DB.value_ b = init_val).
Proof.
  intros Hlh; cbn; repeat split.
  - apply std_max_ordered, Hlh.
  - apply std_clamp_bounds, Hlh.
  - apply std_clamp_bounds, Hlh.
  - apply std_clamp_below.
  - apply std_clamp_above, Hlh.
  - apply std_clamp_inside.
Qed.
End Construction.

(** C1: [DynamicallyBounded(init_val, min, max)] with [min > max] raises
    [max_] to [min] and leaves [min_] alone, but it clamps [init_val] against
    the parameters it was given, not against the corrected range, and so
    calls [std::clamp] outside its precondition.  For an initial value at or
    above [min] both formulations of [std::clamp] return the parameter [max]:
    the object holds [max], below its range [[min, min]].  On libstdc++ this is
    so for every initial value. *)
Theorem make_min_above_max :
  forall (T : Type) (N : numeric T) (O : numeric_order T)
         (wrap : bool) (init_val min max : T),
    max <T min ->
    let b := DB.make wrap init_val min max in
    DB.min_ b = min /\ DB.max_ b = min /\
    (min <=T init_val ->
     b = dynamic_make_minmax wrap init_val min max /\
     DB.value_ b = max /\ DB.value_ b <T DB.min_ b) /\
    (forall v : T, dynamic_make_minmax wrap v min max = DB.Build wrap max min min).
Proof.
  intros T N O wrap init_val min max Hlt.
  assert (Hmax : std_max min max = min).
  { unfold std_max; rewrite (ltT_asym _ _ Hlt); reflexivity. }
  assert (Hmm : forall v : T, std_clamp_minmax v min max = max).
  { intros v; apply std_clamp_minmax_inverted, Hlt. }
  unfold DB.make, dynamic_make_minmax; cbv zeta; cbn [DB.value_ DB.min_ DB.max_].
  rewrite Hmax; split; [reflexivity|]; split; [reflexivity|]; split.
  - intros Hle.
    assert (Hmv : max <T init_val).
    { apply leT_true_iff in Hle; destruct (ltT min init_val) eqn:Hlt'.
      - eapply ltT_trans; eassumption.
      - rewrite (ltT_total _ _ Hle Hlt'); exact Hlt. }
    apply leT_true_iff in Hle.
    assert (E : std_clamp init_val min max = max)
      by (unfold std_clamp; rewrite Hle, Hmv; reflexivity).
    rewrite E, Hmm; split; [reflexivity|]. split; [reflexivity | exact Hlt].
  - intros v; rewrite Hmm; reflexivity.
Qed.

Lemma make_min_above_max_witness :
  let b := DB.make (T := ival int) false 7 5 2 in
  ltT (T := ival int) 2 5 = true /\
  DB.min_ b = 5 /\ DB.max_ b = 5 /\ DB.value_ b = 2 /\ DB.value_ b <T DB.min_ b /\
  dynamic_make_minmax (T := ival int) false 1 5 2 = DB.Build false 2 5 5.
Proof.
  pose proof (make_min_above_max (ival int) _ _ false 7 5 2 eq_refl) as W.
  cbv zeta in W; destruct W as (Hmin & Hmax & Hv & Hall).
  split; [reflexivity|]. split; [exact Hmin|]. split; [exact Hmax|].
  split; [exact (proj1 (proj2 (Hv eq_refl)))|].
  split; [exact (proj2 (proj2 (Hv eq_refl))) | exact (Hall 1)].
Defined.

(** C3: the constructors clamp whatever the wrap flag is, but the
    [DynamicallyBounded] one clamps against its parameters.
    [DynamicallyBounded<int, true>(7, 5, 2)] ends with the range [[5, 5]] and
    the stored value 2: neither the nearest bound nor inside the range.  Both
    formulations of [std::clamp] give 2 here. *)
Theorem make_wrap_flag_min_above_max :
  let b := DB.make (T := ival int) true 7 5 2 in
  DB.min_ b = 5 /\ DB.max_ b = 5 /\ DB.value_ b = 2 /\
  ltT (DB.value_ b) (DB.min_ b) = true /\
  std_clamp_minmax (T := ival int) 7 5 2 = 2.
Proof. repeat split. Qed.

(* ================================================================== *)
(** * Assignment in clamp mode *)
(* ================================================================== *)




(* ================================================================== *)
(** * Assignment in wrap mode: the pass-through branch *)
(* ================================================================== *)

(** C8: with [wrap = true], assigning a value already within the bounds
    stores that very value: the branch taken does not call [modulo] (the
    statement holds for every [modulo] an instance of [numeric] may carry).  In
    particular an object whose value is within its bounds is left as it is by
    assigning it its own value. *)
Theorem wrap_assign_pass_through :
  forall (T : Type) (N : numeric T) (O : numeric_order T),
    (forall (min max : Z) (this : SB.t min max true) (v : T),
        static_cast min <=T v -> v <=T static_cast max ->
        SB.assign this v = SB.Build min max true v /\
        (v = SB.value_ this -> SB.assign this v = this))
    /\
    (forall (this : DB.t true) (v : T),
        DB.min_ this <=T v -> v <=T DB.max_ this ->
        DB.assign this v = DB.Build true v (DB.min_ this) (DB.max_ this) /\
        (v = DB.value_ this -> DB.assign this v = this)).
Proof.
  intros T N O; split.
  - intros min max this v Hlo Hhi.
    apply leT_true_iff in Hlo, Hhi.
    assert (E : SB.assign this v = SB.Build min max true v).
    { unfold SB.assign, gtT; rewrite Hlo, Hhi; reflexivity. }
    split; [exact E|]. intros ->; rewrite E; destruct this; reflexivity.
  - intros this v Hlo Hhi.
    apply leT_true_iff in Hlo, Hhi.
    assert (E : DB.assign this v = DB.Build true v (DB.min_ this) (DB.max_ this)).
    { unfold DB.assign, gtT; rewrite Hlo, Hhi; reflexivity. }
    split; [exact E|]. intros ->; rewrite E; destruct this; reflexivity.
Qed.

Lemma wrap_assign_pass_through_witness :
  leT (T := ival int) (static_cast 0) 5 = true /\
  leT (T := ival int) 5 (static_cast 11) = true /\
  SB.assign (SB.make (T := ival int) 0 11 true 5) 5
  = SB.make (T := ival int) 0 11 true 5.
Proof.
  destruct (wrap_assign_pass_through (ival int) _ _) as [HS _].
  split; [reflexivity|]. split; [reflexivity|].
  exact (proj2 (HS 0 11 (SB.make (T := ival int) 0 11 true 5) 5 eq_refl eq_refl) eq_refl).
Defined.

(* ================================================================== *)
(** * Assignment in wrap mode: the modulo branch *)
(* ================================================================== *)

(* ================================================================== *)
(** * Assignment in wrap mode: the modulo branch *)
(* ================================================================== *)

(** What [operator=] stores in wrap mode, in terms of the bounds only. *)
Lemma stores_on_assign_wrap {T : Type} `{numeric T} (lo hi v stored : T) :
  stores_on_assign true lo hi v stored ->
  stored =
    if ltT v lo || gtT v hi then
      let length := subT hi lo in
      let length := if is_integral_v then addT length (static_cast 1) else length in
      addT lo (modulo (subT v lo) length)
    else v.
Proof.
  intros [min max this <- <- | this <- <-].
  - unfold StaticallyBounded.assign; destruct (_ || _); reflexivity.
  - unfold DynamicallyBounded.assign, DynamicallyBounded.get_min,
      DynamicallyBounded.get_max; destruct (_ || _); reflexivity.
Qed.

(** The same at an integral type: [in - min_] is reduced to the type before
    [modulo] sees it. *)
Lemma stores_on_assign_integral (k : integral) (min max v stored : ival k) :
  representable k min -> representable k max ->
  min <= max -> representable k (max - min + 1) ->
  stores_on_assign true min max v stored ->
  stored = if (v <? min) || (max <? v)
           then min + floored_modulo (wrap32 k (v - min)) (max - min + 1)
           else v.
Proof.
  intros Hmin Hmax Hle Hlen Hst.
  apply stores_on_assign_wrap in Hst; rewrite Hst.
  assert (H1 : representable k 1) by (unfold representable; destruct k; cbn; lia).
  assert (Hd : representable k (max - min)).
  { unfold representable in *; destruct k; cbn [T_MIN T_MAX] in *; lia. }
  unfold gtT; cbn [ltT is_integral_v addT subT modulo static_cast integral_numeric].
  destruct ((v <? min) || (max <? v)); [|reflexivity].
  rewrite (wrap32_id k 1 H1), (wrap32_id k (max - min) Hd), (wrap32_id k _ Hlen).
  apply wrap32_id.
  pose proof (proj1 (floored_modulo_contract (wrap32 k (v - min)) (max - min + 1)
                       ltac:(lia))).
  unfold representable in *; lia.
Qed.

Lemma mod_shift_iff (a b L : Z) :
  0 < L -> ((a + b) mod L = a mod L <-> b mod L = 0).
Proof.
  intros HL; split; intros E.
  - replace b with ((a + b) - a) by lia.
    rewrite Zminus_mod, E, Z.sub_diag; apply Z.mod_0_l; lia.
  - rewrite Zplus_mod, E, Z.add_0_r; apply Z.mod_mod; lia.
Qed.

(** Where the code agrees with the claim: at an integral type, when
    [v - min] is representable in it (no overflow at [int], no wrap-around at
    [unsigned]), the stored value is within the bounds, congruent to [v]
    modulo [length = max - min + 1], equal to [v] when [v] is within the
    bounds and to [min + floored_modulo (v - min) length] otherwise. *)
Lemma wrap_assign_in_type (k : integral) (min max v stored : ival k) :
  representable k min -> representable k max ->
  min <= max -> representable k (max - min + 1) ->
  representable k (v - min) ->
  stores_on_assign true min max v stored ->
  let length := max - min + 1 in
  min <= stored <= max /\
  stored mod length = v mod length /\
  (min <= v <= max -> stored = v) /\
  (v < min \/ max < v -> stored = min + floored_modulo (v - min) length).
Proof.
  intros Hmin Hmax Hle Hlen Hv Hst length.
  rewrite (stores_on_assign_integral k min max v stored Hmin Hmax Hle Hlen Hst).
  rewrite (wrap32_id k _ Hv); fold length.
  pose proof (proj1 (floored_modulo_contract (v - min) length ltac:(unfold length; lia)))
    as Hr.
  destruct ((v <? min) || (max <? v)) eqn:Hout.
  - apply orb_true_iff in Hout; rewrite !Z.ltb_lt in Hout.
    split; [unfold length in *; lia|]. split; [|split; [lia | reflexivity]].
    unfold floored_modulo.
    rewrite Z.add_mod_idemp_r by (unfold length; lia). f_equal; lia.
  - apply orb_false_iff in Hout; rewrite !Z.ltb_ge in Hout.
    split; [lia|]. split; [reflexivity|]. split; [reflexivity | lia].
Qed.

(** The example of the spec: the range [[0, 11]] at [int], assigned 15,
    stores 3. *)
Example wrap_assign_spec_example :
  SB.value_ (SB.assign (SB.make (T := ival int) 0 11 true 5) 15) = 3 /\
  DB.value_ (DB.assign (DB.make (T := ival int) true 5 0 11) 15) = 3.
Proof. split; reflexivity. Qed.

(** C2: at [unsigned] the code does not do what the claim says for a value
    below [min].  [in - min_] is computed in [unsigned] and wraps around 2^32
    before [modulo] is applied, so the stored value is
    [min + floored_modulo (v - min + 2^32) length]; it is congruent to [v]
    modulo [length = max - min + 1], and it is the
    [min + floored_modulo (v - min) length] of the claim, exactly when
    [length] divides 2^32.  Within the bounds and above [max] the code agrees
    with the claim. *)
Theorem wrap_assign_unsigned_diverges :
  forall (min max v stored : ival unsigned),
    representable unsigned min -> representable unsigned max ->
    representable unsigned v ->
    min <= max -> representable unsigned (max - min + 1) ->
    stores_on_assign true min max v stored ->
    let length := max - min + 1 in
    min <= stored <= max /\
    (min <= v <= max -> stored = v) /\
    (max < v ->
     stored = min + floored_modulo (v - min) length /\
     stored mod length = v mod length) /\
    (v < min ->
     stored = min + floored_modulo (v - min + 2 ^ 32) length /\
     (stored mod length = v mod length <-> 2 ^ 32 mod length = 0) /\
     (stored = min + floored_modulo (v - min) length <-> 2 ^ 32 mod length = 0)).
Proof.
  intros min max v stored Hmin Hmax Hv Hle Hlen Hst length.
  assert (HL : 0 < length) by (unfold length; lia).
  pose proof (stores_on_assign_integral unsigned min max v stored Hmin Hmax Hle Hlen Hst)
    as E; fold length in E.
  unfold representable in Hmin, Hmax, Hv, Hlen; cbn [T_MIN T_MAX] in Hmin, Hmax, Hv, Hlen.
  assert (B : forall x, 0 <= floored_modulo x length < length)
    by (intros x; apply floored_modulo_contract, HL).
  destruct ((v <? min) || (max <? v)) eqn:Hout.
  - apply orb_true_iff in Hout; rewrite !Z.ltb_lt in Hout.
    split; [rewrite E; specialize (B (wrap32 unsigned (v - min))); unfold length in *; lia|].
    split; [lia|]. split.
    + intros Hgt.
      assert (W : wrap32 unsigned (v - min) = v - min)
        by (apply wrap32_id; unfold representable; cbn [T_MIN T_MAX]; lia).
      rewrite W in E; split; [exact E|].
      rewrite E; unfold floored_modulo.
      rewrite Z.add_mod_idemp_r by lia. f_equal; lia.
    + intros Hlt.
      assert (W : wrap32 unsigned (v - min) = v - min + 2 ^ 32).
      { cbn [wrap32].
        replace (v - min) with (v - min + 2 ^ 32 + (-1) * 2 ^ 32) by lia.
        rewrite Z_mod_plus_full, Z.mod_small by lia. lia. }
      rewrite W in E; split; [exact E|].
      assert (C : stored mod length = (v + 2 ^ 32) mod length).
      { rewrite E; unfold floored_modulo.
        rewrite Z.add_mod_idemp_r by lia. f_equal; lia. }
      split.
      * rewrite C; apply mod_shift_iff, HL.
      * rewrite E; unfold floored_modulo.
        rewrite <- (mod_shift_iff (v - min) (2 ^ 32) length HL).
        split; intros X; lia.
  - apply orb_false_iff in Hout; rewrite !Z.ltb_ge in Hout.
    split; [lia|]. split; [intros _; exact E|]. split; intros; lia.
Qed.

Lemma wrap_assign_unsigned_diverges_witness :
  let b := DB.make (T := ival unsigned) true 3 3 14 in
  let stored := DB.value_ (DB.assign b 1) in
  representable unsigned 3 /\ representable unsigned 14 /\ representable unsigned 1 /\
  representable unsigned (14 - 3 + 1) /\
  stored = 5 /\
  stored mod 12 <> 1 mod 12 /\
  stored <> 3 + floored_modulo (1 - 3) 12 /\
  3 + floored_modulo (1 - 3) 12 = 13.
Proof.
  intros b stored.
  assert (R3 : representable unsigned 3) by (apply representable_small; lia).
  assert (R14 : representable unsigned 14) by (apply representable_small; lia).
  assert (R1 : representable unsigned 1) by (apply representable_small; lia).
  assert (R12 : representable unsigned (14 - 3 + 1)) by (apply representable_small; lia).
  assert (Hst : stores_on_assign (T := ival unsigned) true 3 14 1 stored).
  { apply (stores_dynamic true 3 14 1 b); reflexivity. }
  pose proof (wrap_assign_unsigned_diverges 3 14 1 stored R3 R14 R1 ltac:(lia) R12 Hst)
    as W.
  cbv zeta in W; destruct W as (_ & _ & _ & Hlt).
  destruct (Hlt ltac:(lia)) as (E & C & F).
  split; [exact R3|]. split; [exact R14|]. split; [exact R1|]. split; [exact R12|].
  split; [exact E|]. split; [|split; [|reflexivity]].
  - intros X; apply C in X; vm_compute in X; discriminate X.
  - intros X; apply F in X; vm_compute in X; discriminate X.
Defined.

(* ================================================================== *)
(** * The bound setters *)
(* ================================================================== *)

(** C4: from a [DynamicallyBounded] with [min_ <= max_], any sequence of calls
    of the setters [min(new_min)] and [max(new_max)] ends with [min_ <= max_].
    [min(new_min)] stores [new_min] exactly when [new_min <= max_], and
    [max(new_max)] stores [new_max] exactly when [min_ <= new_max]; a call that
    is refused leaves the object as it was. *)
Theorem setters_keep_bounds_ordered :
  forall (T : Type) (N : numeric T) (wrap : bool) (this : DB.t wrap),
    (DB.min_ this <=T DB.max_ this ->
     forall cs : list (DB.setter_call T),
       DB.min_ (DB.run_setters this cs) <=T DB.max_ (DB.run_setters this cs))
    /\
    (forall new_min : T,
        (new_min <=T DB.max_ this ->
         DB.min_ (DB.set_min this new_min) = new_min /\
         DB.max_ (DB.set_min this new_min) = DB.max_ this) /\
        (leT new_min (DB.max_ this) = false -> DB.set_min this new_min = this))
    /\
    (forall new_max : T,
        (DB.min_ this <=T new_max ->
         DB.min_ (DB.set_max this new_max) = DB.min_ this /\
         DB.max_ (DB.set_max this new_max) = new_max) /\
        (leT (DB.min_ this) new_max = false -> DB.set_max this new_max = this)).
Proof.
  intros T N wrap this; split; [|split].
  - intros Hinv cs; apply run_setters_ordered, Hinv.
  - intros x; unfold DB.set_min; split; intros ->; [split|]; reflexivity.
  - intros x; unfold DB.set_max; split; intros ->; [split|]; reflexivity.
Qed.

Lemma setters_keep_bounds_ordered_witness :
  let b := DB.make (T := ival int) false 5 0 10 in
  let calls := [DB.call_set_min 20; DB.call_set_max 3; DB.call_set_min 4; DB.call_set_max 7] in
  DB.min_ b <=T DB.max_ b /\
  DB.min_ (DB.run_setters b calls) <=T DB.max_ (DB.run_setters b calls) /\
  DB.run_setters b calls = DB.Build false 5 0 7 /\
  DB.set_min b 20 = b.
Proof.
  intros b calls.
  destruct (setters_keep_bounds_ordered (ival int) _ false b) as (Hseq & Hmin & _).
  split; [reflexivity|]. split; [exact (Hseq eq_refl calls)|].
  split; [reflexivity|]. exact (proj2 (Hmin 20) eq_refl).
Defined.

(** C5: the setters never touch [value_], whether they accept the new bound
    or not, and so does any sequence of setter calls; the value can thereby lie
    outside the new range.  [DynamicallyBounded<int>(5, 0, 10)] after
    [min(6)] has the range [[6, 10]] and still the value 5; [normalize()] then
    returns [-0.25], below 0; the next write ([+= 0]) stores 6.  After
    [max(4)] instead, [normalize()] returns [1.25], above 1. *)
Theorem setters_keep_value :
  (forall (T : Type) (N : numeric T) (wrap : bool) (this : DB.t wrap) (x : T),
      DB.value_ (DB.set_min this x) = DB.value_ this /\
      DB.value_ (DB.set_max this x) = DB.value_ this)
  /\
  (forall (T : Type) (N : numeric T) (wrap : bool) (this : DB.t wrap)
          (cs : list (DB.setter_call T)),
      DB.value_ (DB.run_setters this cs) = DB.value_ this)
  /\
  (let b := DB.set_min (DB.make (T := ival int) false 5 0 10) 6 in
   b = DB.Build false 5 6 10 /\
   DB.value_ b <T DB.min_ b /\
   DB.normalize b = S754_finite true 8388608 (-25) /\
   float_lt (DB.normalize b) float_zero = true /\
   DB.add_assign b 0 = DB.Build false 6 6 10)
  /\
  (let b := DB.set_max (DB.make (T := ival int) false 5 0 10) 4 in
   b = DB.Build false 5 0 4 /\
   DB.max_ b <T DB.value_ b /\
   DB.normalize b = S754_finite false 10485760 (-23) /\
   float_lt float_one (DB.normalize b) = true).
Proof.
  split; [|split].
  - intros T N wrap this x; split; [apply set_min_value | apply set_max_value].
  - intros T N wrap this cs; apply run_setters_value.
  - split; vm_compute; repeat split.
Qed.

(* ================================================================== *)
(** * Increment and decrement of a [StaticallyBounded] *)
(* ================================================================== *)

(** C6: [operator++()] and [operator--()] (the prefix forms) return by value
    the copy of the object made before the assignment, and leave the receiver
    assigned [value_ + 1], respectively [value_ - 1]; [operator++(int)] and
    [operator--(int)] (the postfix forms) do the same assignment and return a
    reference to the receiver, through which the new state is read. *)
Theorem increment_decrement_results :
  forall (T : Type) (N : numeric T) (min max : Z) (wrap : bool)
         (this : SB.t min max wrap),
    let up := SB.assign this (addT (SB.value_ this) (static_cast 1)) in
    let down := SB.assign this (subT (SB.value_ this) (static_cast 1)) in
    (SB.prefix_inc this = (by_value this, up) /\
     read_returned (fst (SB.prefix_inc this)) (snd (SB.prefix_inc this)) = this) /\
    (SB.postfix_inc this = (ref_this, up) /\
     read_returned (fst (SB.postfix_inc this)) (snd (SB.postfix_inc this)) = up) /\
    (SB.prefix_dec this = (by_value this, down) /\
     read_returned (fst (SB.prefix_dec this)) (snd (SB.prefix_dec this)) = this) /\
    (SB.postfix_dec this = (ref_this, down) /\
     read_returned (fst (SB.postfix_dec this)) (snd (SB.postfix_dec this)) = down).
Proof. intros; repeat split. Qed.

(** The two forms told apart on [StaticallyBounded<int, 0, 11, true>] at 11. *)
Example increment_at_upper_bound :
  let b := SB.make (T := ival int) 0 11 true 11 in
  SB.value_ (read_returned (fst (SB.prefix_inc b)) (snd (SB.prefix_inc b))) = 11 /\
  SB.value_ (snd (SB.prefix_inc b)) = 0 /\
  SB.value_ (read_returned (fst (SB.postfix_inc b)) (snd (SB.postfix_inc b))) = 0 /\
  SB.value_ (snd (SB.postfix_inc b)) = 0.
Proof. repeat split. Qed.

(* ================================================================== *)
(** * Comparison *)
(* ================================================================== *)



(* ================================================================== *)
(** * [normalize()] *)
(* ================================================================== *)







(** At [int] a range wider than [INT_MAX] has no representable
    [max_ - min_]: the subtraction in [normalize()] overflows, which the
    language leaves undefined. *)
Example normalize_int_wide_range :
  let b := DB.make (T := ival int) false 0 (-2000000000) 2000000000 in
  DB.min_ b < DB.max_ b /\ ~ representable int (DB.max_ b - DB.min_ b).
Proof.
  cbn; split; [lia|]. unfold representable; cbn [T_MIN T_MAX]; lia.
Qed.

(** [normalize()] divides in binary32.  On [StaticallyBounded<int, 0, 2>] it
    gives [+0.0] at 0, [0.5] at 1 and [1.0] at 2; likewise on a
    [DynamicallyBounded<int>] with the range [[-3, 5]]. *)
Example normalize_static_examples :
  let at_ (v : ival int) := SB.normalize (SB.make (T := ival int) 0 2 false v) in
  at_ 0 = float_zero /\
  at_ 1 = S754_finite false 8388608 (-24) /\
  at_ 2 = float_one /\
  float_of_Z 1 = float_one.
Proof. vm_compute; repeat split. Qed.

Example normalize_dynamic_examples :
  let at_ (v : ival int) := DB.normalize (DB.make (T := ival int) false v (-3) 5) in
  at_ (-3) = float_zero /\
  at_ 1 = S754_finite false 8388608 (-24) /\
  at_ 5 = float_one.
Proof. vm_compute; repeat split. Qed.

(* ================================================================== *)
(** * Every mutator ends in [operator=] *)
(* ================================================================== *)

Section Writes.
Context {T : Type} `{numeric T}.

Lemma dynamic_write_assign (wrap : bool) (this : @DB.t T wrap) (w : write T) :
  exists v : T, dynamic_write this w = DB.assign this v.
Proof. destruct w; cbn; eexists; reflexivity. Qed.

Lemma static_write_assign (min max : Z) (wrap : bool)
    (this : @SB.t T min max wrap) (w : write T) :
  exists v : T, static_write this w = SB.assign this v.
Proof. destruct w; cbn; eexists; reflexivity. Qed.

Lemma dynamic_write_bounds (wrap : bool) (this : @DB.t T wrap) (w : write T) :
  DB.min_ (dynamic_write this w) = DB.min_ this /\
  DB.max_ (dynamic_write this w) = DB.max_ this.
Proof.
  destruct (dynamic_write_assign wrap this w) as [v ->]; apply assign_bounds.
Qed.
End Writes.

Section MoreOrderFacts.
Context {T : Type} `{numeric_order T}.

Lemma ltT_leT_trans (a b c : T) : a <T b -> b <=T c -> a <T c.
Proof.
  intros Hab Hbc; apply leT_true_iff in Hbc.
  destruct (ltT b c) eqn:Hlt.
  - eapply ltT_trans; eassumption.
  - rewrite <- (ltT_total b c Hlt Hbc); exact Hab.
Qed.

Lemma leT_trans (a b c : T) : a <=T b -> b <=T c -> a <=T c.
Proof.
  intros Hab Hbc; apply leT_true_iff.
  destruct (ltT c a) eqn:Hca; [|reflexivity].
  pose proof (ltT_leT_trans c a b Hca Hab) as Hcb.
  apply leT_true_iff in Hbc; congruence.
Qed.

Lemma leT_false_ltT (a b : T) : leT a b = false -> b <T a.
Proof. rewrite leT_ltT, negb_false_iff; exact (fun E => E). Qed.

Lemma ltT_false_leT (a b : T) : ltT a b = false -> b <=T a.
Proof. intros E; apply leT_true_iff, E. Qed.

Lemma ltT_leT_absurd (a b : T) : a <T b -> b <=T a -> False.
Proof. intros Hab Hba; apply leT_true_iff in Hba; congruence. Qed.

(** [std::clamp] is monotone in the value clamped. *)
Lemma std_clamp_monotone (v1 v2 lo hi : T) :
  lo <=T hi -> v1 <=T v2 -> std_clamp v1 lo hi <=T std_clamp v2 lo hi.
Proof.
  intros Hlh Hv; unfold std_clamp.
  destruct (ltT v1 lo) eqn:H1.
  - destruct (ltT v2 lo) eqn:H2; [apply leT_refl|].
    destruct (ltT hi v2); [exact Hlh | apply ltT_false_leT, H2].
  - apply ltT_false_leT in H1.
    assert (H2 : ltT v2 lo = false).
    { destruct (ltT v2 lo) eqn:E; [|reflexivity].
      destruct (ltT_leT_absurd v2 lo E (leT_trans _ _ _ H1 Hv)). }
    rewrite H2; destruct (ltT hi v1) eqn:H3.
    + rewrite (ltT_leT_trans hi v1 v2 H3 Hv); apply leT_refl.
    + destruct (ltT hi v2); [apply ltT_false_leT, H3 | exact Hv].
Qed.

(** Clamping what is already clamped changes nothing. *)
Lemma std_clamp_idempotent (v lo hi : T) :
  lo <=T hi -> std_clamp (std_clamp v lo hi) lo hi = std_clamp v lo hi.
Proof.
  intros Hlh; destruct (std_clamp_bounds v lo hi Hlh) as [Hlo Hhi].
  apply std_clamp_inside; assumption.
Qed.
End MoreOrderFacts.

(* ================================================================== *)
(** * Writes in clamp mode *)
(* ================================================================== *)

Lemma dynamic_write_argument {T : Type} `{numeric T} (wrap : bool)
    (this : @DB.t T wrap) (w : write T) :
  dynamic_write this w = DB.assign this (write_argument (DB.value_ this) w).
Proof. destruct w; reflexivity. Qed.

Lemma static_write_argument {T : Type} `{numeric T} (min max : Z) (wrap : bool)
    (this : @SB.t T min max wrap) (w : write T) :
  static_write this w = SB.assign this (write_argument (SB.value_ this) w).
Proof. destruct w; reflexivity. Qed.

(** X1: in clamp mode every mutator ([=], [+=], [-=], [*=], [++], [--])
    whose arithmetic is defined and yields a number leaves the value within
    the bounds, whatever the value was before.  At [unsigned], and at [int]
    when the result of the mutator is representable: on a [StaticallyBounded]
    whose bounds are in order after the cast, and on every
    [DynamicallyBounded] that the constructor, the setters and the mutators
    can produce.  At [float], when the value handed to [operator=] is not NaN
    and the bounds are numbers in order. *)
Theorem clamp_mutators_end_in_bounds :
  (forall (k : integral),
      (forall (min max : Z) (this : @SB.t (ival k) min max false) (w : write (ival k)),
          static_cast (T := ival k) min <=T static_cast max ->
          write_defined k (SB.value_ this) w ->
          static_cast (T := ival k) min <=T SB.value_ (static_write this w) /\
          SB.value_ (static_write this w) <=T static_cast (T := ival k) max)
      /\
      (forall (this : @DB.t (ival k) false) (w : write (ival k)),
          reachable this ->
          write_defined k (DB.value_ this) w ->
          let this' := dynamic_write this w in
          reachable this' /\
          DB.min_ this' <=T DB.value_ this' /\ DB.value_ this' <=T DB.max_ this'))
  /\
  (forall (float_modulo : float -> float -> float),
      let N := float_numeric float_modulo in
      (forall (min max : Z) (this : @SB.t float min max false) (w : write float),
          float_is_number (@write_argument float N (SB.value_ this) w) = true ->
          float_is_number (float_of_Z min) = true ->
          float_is_number (float_of_Z max) = true ->
          SFleb (float_of_Z min) (float_of_Z max) = true ->
          let stored := SB.value_ (@static_write float N min max false this w) in
          SFleb (float_of_Z min) stored = true /\ SFleb stored (float_of_Z max) = true)
      /\
      (forall (this : @DB.t float false) (w : write float),
          float_is_number (@write_argument float N (DB.value_ this) w) = true ->
          float_is_number (DB.min_ this) = true ->
          float_is_number (DB.max_ this) = true ->
          SFleb (DB.min_ this) (DB.max_ this) = true ->
          let this' := @dynamic_write float N false this w in
          DB.min_ this' = DB.min_ this /\ DB.max_ this' = DB.max_ this /\
          SFleb (DB.min_ this) (DB.value_ this') = true /\
          SFleb (DB.value_ this') (DB.max_ this) = true)).
Proof.
  split.
  - intros k; split.
    + intros min max this w Hlh _.
      rewrite static_write_argument; apply std_clamp_bounds, Hlh.
    + intros this w Hr _; cbv zeta.
      rewrite dynamic_write_argument.
      split; [exact (reachable_assign this _ Hr)|].
      unfold DB.assign; cbn [DB.value_ DB.min_ DB.max_].
      apply std_clamp_bounds, (reachable_bounds_ordered false this Hr).
  - intros float_modulo N; split.
    + intros min max this w Hv Hlo Hhi Hlh; cbv zeta.
      rewrite (@static_write_argument float N).
      exact (proj1 (@weak_clamp float N float_is_number (float_weak_order float_modulo)
                      _ _ _ Hv Hlo Hhi Hlh)).
    + intros this w Hv Hlo Hhi Hlh; cbv zeta.
      rewrite (@dynamic_write_argument float N).
      split; [reflexivity|]. split; [reflexivity|].
      exact (proj1 (@weak_clamp float N float_is_number (float_weak_order float_modulo)
                      _ _ _ Hv Hlo Hhi Hlh)).
Qed.

Lemma clamp_mutators_end_in_bounds_witness :
  let b := DB.set_max (DB.make (T := ival int) false 9 0 10) 4 in
  let N := float_numeric float_floored_modulo in
  let f := @DB.make float N false (float_of_Z 5) (float_of_Z 0) (float_of_Z 10) in
  reachable b /\ DB.value_ b = 9 /\ DB.max_ b = 4 /\
  write_defined int (DB.value_ b) (w_mul 7) /\
  DB.value_ (dynamic_write b (w_mul 7)) <=T DB.max_ (dynamic_write b (w_mul 7)) /\
  DB.value_ (dynamic_write b (w_mul 7)) = 4 /\
  float_is_number (@write_argument float N (DB.value_ f) (w_mul (float_of_Z 7))) = true /\
  SFleb (DB.value_ (@dynamic_write float N false f (w_mul (float_of_Z 7)))) (float_of_Z 10)
  = true /\
  DB.value_ (@dynamic_write float N false f (w_mul (float_of_Z 7))) = float_of_Z 10.
Proof.
  intros b N f.
  assert (Hr : reachable b) by (apply reachable_set_max, reachable_make).
  assert (Hd : write_defined int (DB.value_ b) (w_mul 7))
    by (unfold write_defined, representable; cbn; lia).
  destruct clamp_mutators_end_in_bounds as [HI HF].
  destruct (HI int) as [_ HD].
  destruct (HF float_floored_modulo) as [_ HFD].
  split; [exact Hr|]. split; [reflexivity|]. split; [reflexivity|].
  split; [exact Hd|].
  split; [exact (proj2 (proj2 (HD b (w_mul 7) Hr Hd)))|]. split; [reflexivity|].
  split; [reflexivity|].
  split; [|reflexivity].
  exact (proj2 (proj2 (proj2
           (HFD f (w_mul (float_of_Z 7)) eq_refl eq_refl eq_refl eq_refl)))).
Defined.

(** At [float] the sum of NaN and anything is NaN, and [operator=] stores it:
    [DynamicallyBounded<float>(5, 0, 10)] after [+= NaN] holds NaN. *)
Example clamp_add_nan :
  let N := float_numeric float_floored_modulo in
  let f := @DB.make float N false (float_of_Z 5) (float_of_Z 0) (float_of_Z 10) in
  DB.value_ (@dynamic_write float N false f (w_add S754_nan)) = S754_nan.
Proof. reflexivity. Qed.

(** X2: [operator=] in clamp mode is monotone: of two values assigned to
    the same object, the smaller one is stored as the smaller (or equal)
    value. *)
Theorem clamp_assign_monotone :
  forall (T : Type) (N : numeric T) (O : numeric_order T) (v1 v2 : T),
    v1 <=T v2 ->
    (forall (min max : Z) (this : SB.t min max false),
        static_cast min <=T static_cast max ->
        SB.value_ (SB.assign this v1) <=T SB.value_ (SB.assign this v2))
    /\
    (forall (this : DB.t false),
        DB.min_ this <=T DB.max_ this ->
        DB.value_ (DB.assign this v1) <=T DB.value_ (DB.assign this v2)).
Proof.
  intros T N O v1 v2 Hv; split.
  - intros min max this Hlh; apply std_clamp_monotone; assumption.
  - intros this Hlh; apply std_clamp_monotone; assumption.
Qed.

Lemma clamp_assign_monotone_witness :
  let b := DB.make (T := ival int) false 5 0 10 in
  leT (T := ival int) (-3) 12 = true /\
  DB.value_ (DB.assign b (-3)) = 0 /\ DB.value_ (DB.assign b 12) = 10 /\
  DB.value_ (DB.assign b (-3)) <=T DB.value_ (DB.assign b 12).
Proof.
  intros b.
  destruct (clamp_assign_monotone (ival int) (integral_numeric int) (integral_order int)
              (-3) 12 eq_refl) as [_ HD].
  split; [reflexivity|]. split; [reflexivity|]. split; [reflexivity|].
  exact (HD b eq_refl).
Defined.

(** X3: in clamp mode a write is absorbed by the next one: assigning an
    object the value it holds after any mutator leaves it as it is, so
    [x = v; x = T(x);] equals [x = v;]. *)
Theorem clamp_assign_idempotent :
  forall (T : Type) (N : numeric T) (O : numeric_order T),
    (forall (min max : Z) (this : SB.t min max false) (w : write T),
        static_cast min <=T static_cast max ->
        let this' := static_write this w in
        SB.assign this' (SB.to_T this') = this')
    /\
    (forall (this : DB.t false) (w : write T),
        DB.min_ this <=T DB.max_ this ->
        let this' := dynamic_write this w in
        DB.assign this' (DB.to_T this') = this').
Proof.
  intros T N O; split.
  - intros min max this w Hlh; cbv zeta.
    destruct (static_write_assign min max false this w) as [v ->].
    unfold SB.assign, SB.to_T; cbn [SB.value_].
    rewrite std_clamp_idempotent by exact Hlh; reflexivity.
  - intros this w Hlh; cbv zeta.
    destruct (dynamic_write_assign false this w) as [v ->].
    unfold DB.assign, DB.to_T; cbn [DB.value_ DB.min_ DB.max_].
    rewrite std_clamp_idempotent by exact Hlh; reflexivity.
Qed.

Lemma clamp_assign_idempotent_witness :
  let b := DB.make (T := ival int) false 5 0 10 in
  DB.min_ b <=T DB.max_ b /\
  DB.assign (dynamic_write b (w_add 100)) 10 = dynamic_write b (w_add 100).
Proof.
  intros b.
  destruct (clamp_assign_idempotent (ival int) _ _) as [_ HD].
  split; [reflexivity|]. exact (HD b (w_add 100) eq_refl).
Defined.

(* ================================================================== *)
(** * The two templates side by side *)
(* ================================================================== *)

Lemma variants_agree_step {T : Type} `{numeric T} (min max : Z) (wrap : bool)
    (s : @SB.t T min max wrap) (d : @DB.t T wrap) (w : write T) :
  DB.value_ d = SB.value_ s ->
  DB.min_ d = static_cast min -> DB.max_ d = static_cast max ->
  DB.value_ (dynamic_write d w) = SB.value_ (static_write s w).
Proof.
  intros Hv Hmin Hmax.
  assert (A : forall v : T, DB.value_ (DB.assign d v) = SB.value_ (SB.assign s v)).
  { intros v; unfold DB.assign, SB.assign, DB.get_min, DB.get_max.
    rewrite Hmin, Hmax; destruct wrap; [destruct (_ || _)|]; reflexivity. }
  destruct w; cbn [dynamic_write static_write snd];
    unfold DB.add_assign, DB.sub_assign, DB.mul_assign, DB.inc, DB.dec,
      SB.add_assign, SB.sub_assign, SB.mul_assign, SB.prefix_inc, SB.prefix_dec;
    cbn [snd]; rewrite ?Hv; apply A.
Qed.

Lemma writes_agree {T : Type} `{numeric T} (min max : Z) (wrap : bool)
    (ws : list (write T)) :
  forall (s : @SB.t T min max wrap) (d : @DB.t T wrap),
    DB.value_ d = SB.value_ s ->
    DB.min_ d = static_cast min -> DB.max_ d = static_cast max ->
    DB.value_ (dynamic_writes d ws) = SB.value_ (static_writes s ws) /\
    DB.min_ (dynamic_writes d ws) = static_cast min /\
    DB.max_ (dynamic_writes d ws) = static_cast max.
Proof.
  unfold dynamic_writes, static_writes.
  induction ws as [|w ws IH]; intros s d Hv Hmin Hmax; [repeat split; assumption|].
  cbn [fold_left]; apply IH.
  - apply variants_agree_step; assumption.
  - rewrite (proj1 (dynamic_write_bounds wrap d w)); exact Hmin.
  - rewrite (proj2 (dynamic_write_bounds wrap d w)); exact Hmax.
Qed.

(** X4: a [DynamicallyBounded<T, wrap>] whose bounds are the casts of [min]
    and [max] and a [StaticallyBounded<T, min, max, wrap>] holding the same
    value go through any sequence of mutators in step: after it they hold the
    same value, and the bounds of the former have not moved. *)
Theorem variants_agree :
  forall (T : Type) (N : numeric T) (min max : Z) (wrap : bool)
         (s : SB.t min max wrap) (d : DB.t wrap) (ws : list (write T)),
    DB.value_ d = SB.value_ s ->
    DB.min_ d = static_cast min -> DB.max_ d = static_cast max ->
    DB.value_ (dynamic_writes d ws) = SB.value_ (static_writes s ws) /\
    DB.min_ (dynamic_writes d ws) = static_cast min /\
    DB.max_ (dynamic_writes d ws) = static_cast max.
Proof. intros T N min max wrap s d ws; apply writes_agree. Qed.

Lemma variants_agree_witness :
  let s := SB.make (T := ival int) 0 11 true 5 in
  let d := DB.make (T := ival int) true 5 0 11 in
  let ws := [w_add 9; w_inc; w_mul 5; w_sub 40; w_dec; w_assign (-1)] in
  DB.value_ d = SB.value_ s /\
  DB.value_ (dynamic_writes d ws) = SB.value_ (static_writes s ws) /\
  SB.value_ (static_writes s ws) = 11.
Proof.
  intros s d ws.
  split; [reflexivity|]. split; [|reflexivity].
  exact (proj1 (variants_agree (ival int) _ 0 11 true s d ws eq_refl eq_refl eq_refl)).
Defined.

(* ================================================================== *)
(** * Moving both bounds *)
(* ================================================================== *)

(** X5: to give a [DynamicallyBounded] with ordered bounds a new ordered
    range [[lo, hi]], two setter calls suffice, in an order that depends on the
    object: [max(hi)] then [min(lo)] works when [min_ <= hi], [min(lo)] then
    [max(hi)] works when [lo <= max_], and one of the two conditions always
    holds.  In the other order the first call is refused: when [max_ < lo],
    [min(lo)] then [max(hi)] ends with the range [[min_, hi]]. *)
Theorem setters_reach_any_range :
  forall (T : Type) (N : numeric T) (O : numeric_order T)
         (wrap : bool) (this : DB.t wrap) (lo hi : T),
    DB.min_ this <=T DB.max_ this -> lo <=T hi ->
    (DB.min_ this <=T hi ->
     DB.set_min (DB.set_max this hi) lo = DB.Build wrap (DB.value_ this) lo hi) /\
    (lo <=T DB.max_ this ->
     DB.set_max (DB.set_min this lo) hi = DB.Build wrap (DB.value_ this) lo hi) /\
    (DB.min_ this <=T hi \/ lo <=T DB.max_ this) /\
    (DB.max_ this <T lo ->
     DB.set_max (DB.set_min this lo) hi
     = DB.Build wrap (DB.value_ this) (DB.min_ this) hi).
Proof.
  intros T N O wrap this lo hi Hinv Hlh; split; [|split; [|split]].
  - intros H1; unfold DB.set_max; rewrite H1.
    unfold DB.set_min; cbn [DB.max_ DB.min_ DB.value_]; rewrite Hlh; reflexivity.
  - intros H1; unfold DB.set_min; rewrite H1.
    unfold DB.set_max; cbn [DB.max_ DB.min_ DB.value_]; rewrite Hlh; reflexivity.
  - destruct (leT (DB.min_ this) hi) eqn:E; [left; reflexivity|right].
    apply leT_false_ltT in E.
    apply ltT_leT, (leT_ltT_trans lo hi), (ltT_leT_trans hi (DB.min_ this)); assumption.
  - intros H1; unfold DB.set_min.
    rewrite leT_ltT, H1; cbn [negb]; unfold DB.set_max.
    assert (H2 : DB.min_ this <=T hi).
    { eapply leT_trans; [exact Hinv|].
      eapply leT_trans; [apply ltT_leT, H1 | exact Hlh]. }
    rewrite H2; reflexivity.
Qed.

Lemma setters_reach_any_range_witness :
  let b := DB.make (T := ival int) false 5 0 10 in
  DB.min_ b <=T DB.max_ b /\ leT (T := ival int) 20 30 = true /\
  DB.set_min (DB.set_max b 30) 20 = DB.Build false 5 20 30 /\
  DB.set_max (DB.set_min b 20) 30 = DB.Build false 5 0 30.
Proof.
  intros b.
  destruct (setters_reach_any_range (ival int) (integral_numeric int) (integral_order int)
              false b 20 30 eq_refl eq_refl) as (HA & _ & _ & HB).
  split; [reflexivity|]. split; [reflexivity|].
  split; [exact (HA eq_refl) | exact (HB eq_refl)].
Defined.

(* ================================================================== *)
(** * Increment and decrement at an integral type *)
(* ================================================================== *)

(** What [operator=] leaves in wrap mode, with the first subtraction still
    reduced to the type. *)
Lemma dynamic_wrap_assign (k : integral) (d : @DB.t (ival k) true) (v : ival k) :
  let min := DB.min_ d in
  let max := DB.max_ d in
  representable k min -> representable k max ->
  min <= max -> representable k (max - min + 1) ->
  DB.assign d v
  = DB.Build true
      (if (v <? min) || (max <? v)
       then min + floored_modulo (wrap32 k (v - min)) (max - min + 1)
       else v)
      min max.
Proof.
  intros min max Hmin Hmax Hle Hlen.
  assert (H1 : representable k 1) by (unfold representable; destruct k; cbn; lia).
  assert (Hd : representable k (max - min)).
  { unfold representable in *; destruct k; cbn [T_MIN T_MAX] in *; lia. }
  unfold DB.assign, DB.get_min, DB.get_max, gtT; fold min max.
  cbn [ltT is_integral_v addT subT modulo static_cast integral_numeric].
  destruct ((v <? min) || (max <? v)); [|reflexivity].
  rewrite (wrap32_id k 1 H1), (wrap32_id k (max - min) Hd), (wrap32_id k _ Hlen).
  rewrite wrap32_id; [reflexivity|].
  pose proof (proj1 (floored_modulo_contract (wrap32 k (v - min)) (max - min + 1)
                       ltac:(lia))).
  unfold representable in *; lia.
Qed.

(** The same as one formula: in range or not, the stored value is [min_]
    plus the residue of [in - min_], the difference being taken in the type. *)
Lemma dynamic_wrap_assign_mod (k : integral) (d : @DB.t (ival k) true) (v : ival k) :
  let min := DB.min_ d in
  let max := DB.max_ d in
  representable k min -> representable k max ->
  min <= max -> representable k (max - min + 1) ->
  DB.assign d v
  = DB.Build true (min + wrap32 k (v - min) mod (max - min + 1)) min max.
Proof.
  intros min max Hmin Hmax Hle Hlen.
  rewrite dynamic_wrap_assign; fold min max; try assumption.
  f_equal. destruct ((v <? min) || (max <? v)) eqn:Hc; [reflexivity|].
  apply orb_false_iff in Hc; destruct Hc as [H1 H2].
  apply Z.ltb_ge in H1, H2.
  rewrite wrap32_id by (unfold representable in *; destruct k; cbn [T_MIN T_MAX] in *; lia).
  rewrite Z.mod_small by lia. lia.
Qed.

(** One [operator++] in wrap mode, below the largest value of the type. *)
Lemma wrap_inc_step (k : integral) (d : @DB.t (ival k) true) :
  let min := DB.min_ d in
  let max := DB.max_ d in
  let value := DB.value_ d in
  representable k min -> representable k max ->
  representable k (max - min + 1) ->
  min <= value <= max -> max < T_MAX k ->
  DB.inc d = DB.Build true (min + (value - min + 1) mod (max - min + 1)) min max.
Proof.
  intros min max value Hmin Hmax Hlen Hin Hlt; unfold DB.inc.
  assert (H1 : representable k 1) by (unfold representable; destruct k; cbn; lia).
  assert (Hv1 : representable k (value + 1)) by (unfold representable in *; lia).
  cbn [addT static_cast integral_numeric]; fold value.
  rewrite (wrap32_id k 1 H1), (wrap32_id k _ Hv1).
  rewrite dynamic_wrap_assign_mod; fold min max; try assumption; try lia.
  f_equal. f_equal.
  replace (value + 1 - min) with (value - min + 1) by lia.
  rewrite wrap32_id; [reflexivity|].
  unfold representable in *; destruct k; cbn [T_MIN T_MAX] in *; lia.
Qed.

(** One [operator--] in wrap mode at [int], above the smallest value of the
    type. *)
Lemma wrap_dec_step_int (d : @DB.t (ival int) true) :
  let min := DB.min_ d in
  let max := DB.max_ d in
  let value := DB.value_ d in
  representable int min -> representable int max ->
  representable int (max - min + 1) ->
  min <= value <= max -> T_MIN int < min ->
  DB.dec d = DB.Build true (min + (value - min - 1) mod (max - min + 1)) min max.
Proof.
  intros min max value Hmin Hmax Hlen Hin Hlt; unfold DB.dec.
  assert (H1 : representable int 1) by (unfold representable; cbn; lia).
  assert (Hv1 : representable int (value - 1)) by (unfold representable in *; lia).
  cbn [subT static_cast integral_numeric]; fold value.
  rewrite (wrap32_id int 1 H1), (wrap32_id int _ Hv1).
  rewrite dynamic_wrap_assign_mod; fold min max; try assumption; try lia.
  f_equal. f_equal.
  replace (value - 1 - min) with (value - min - 1) by lia.
  rewrite wrap32_id; [reflexivity|].
  unfold representable in *; cbn [T_MIN T_MAX] in *; lia.
Qed.

(** One [operator--] in wrap mode at [unsigned], from the lower bound: the
    subtraction wraps around the type, not around the range. *)
Lemma wrap_dec_step_unsigned_at_min (d : @DB.t (ival unsigned) true) :
  let min := DB.min_ d in
  let max := DB.max_ d in
  representable unsigned min -> representable unsigned max ->
  representable unsigned (max - min + 1) ->
  min <= max -> DB.value_ d = min ->
  DB.dec d = DB.Build true (min + (2 ^ 32 - 1) mod (max - min + 1)) min max.
Proof.
  intros min max Hmin Hmax Hlen Hle Hv; unfold DB.dec.
  rewrite dynamic_wrap_assign_mod; fold min max; try assumption.
  f_equal. f_equal. f_equal.
  cbn [subT static_cast integral_numeric]; rewrite Hv.
  unfold representable in *; cbn [T_MIN T_MAX] in *.
  unfold wrap32. rewrite (Z.mod_small 1) by lia.
  rewrite Zminus_mod_idemp_l.
  replace (min - 1 - min) with (-1) by lia. reflexivity.
Qed.

(** Repeated [operator++] in wrap mode. *)
Lemma wrap_incs (k : integral) (n : nat) :
  forall d : @DB.t (ival k) true,
    let min := DB.min_ d in
    let max := DB.max_ d in
    let value := DB.value_ d in
    representable k min -> representable k max ->
    representable k (max - min + 1) ->
    min <= value <= max -> max < T_MAX k ->
    dynamic_writes d (repeat w_inc n)
    = DB.Build true (min + (value - min + Z.of_nat n) mod (max - min + 1)) min max.
Proof.
  induction n as [|n IH]; intros d min max value Hmin Hmax Hlen Hin Hlt.
  - cbn [repeat dynamic_writes fold_left].
    rewrite Z.add_0_r, Z.mod_small by lia.
    destruct d as [v lo hi]; cbn in *; f_equal; lia.
  - cbn [repeat]. unfold dynamic_writes; cbn [fold_left dynamic_write].
    fold (dynamic_writes (DB.inc d) (repeat w_inc n)).
    rewrite wrap_inc_step by assumption. fold min max value.
    assert (Hr : 0 <= (value - min + 1) mod (max - min + 1) < max - min + 1)
      by (apply Z.mod_pos_bound; lia).
    rewrite IH; cbn [DB.min_ DB.max_ DB.value_]; try assumption; try lia.
    f_equal. f_equal.
    replace (min + (value - min + 1) mod (max - min + 1) - min)
      with ((value - min + 1) mod (max - min + 1)) by lia.
    rewrite Zplus_mod_idemp_l. f_equal. lia.
Qed.

(** [operator=] in clamp mode at an integral type. *)
Lemma dynamic_clamp_assign (k : integral) (d : @DB.t (ival k) false) (v : ival k) :
  DB.assign d v
  = DB.Build false
      (if v <? DB.min_ d then DB.min_ d else if DB.max_ d <? v then DB.max_ d else v)
      (DB.min_ d) (DB.max_ d).
Proof. reflexivity. Qed.

(** One [operator++] and one [operator--] in clamp mode, away from the ends
    of the type. *)
Lemma clamp_inc_step (k : integral) (d : @DB.t (ival k) false) :
  let min := DB.min_ d in
  let max := DB.max_ d in
  let value := DB.value_ d in
  representable k min -> representable k max ->
  min <= value <= max -> max < T_MAX k ->
  DB.inc d = DB.Build false (Z.min (value + 1) max) min max.
Proof.
  intros min max value Hmin Hmax Hin Hlt; unfold DB.inc.
  rewrite dynamic_clamp_assign; fold min max value; f_equal.
  cbn [addT static_cast integral_numeric].
  rewrite (wrap32_id k 1) by (unfold representable; destruct k; cbn; lia).
  rewrite wrap32_id by (unfold representable in *; lia).
  destruct (value + 1 <? min) eqn:E1; [apply Z.ltb_lt in E1; lia|].
  destruct (max <? value + 1) eqn:E2;
    [apply Z.ltb_lt in E2 | apply Z.ltb_ge in E2]; lia.
Qed.

Lemma clamp_dec_step (k : integral) (d : @DB.t (ival k) false) :
  let min := DB.min_ d in
  let max := DB.max_ d in
  let value := DB.value_ d in
  representable k min -> representable k max ->
  min <= value <= max -> T_MIN k < min ->
  DB.dec d = DB.Build false (Z.max (value - 1) min) min max.
Proof.
  intros min max value Hmin Hmax Hin Hlt; unfold DB.dec.
  rewrite dynamic_clamp_assign; fold min max value; f_equal.
  cbn [subT static_cast integral_numeric].
  rewrite (wrap32_id k 1) by (unfold representable; destruct k; cbn; lia).
  rewrite wrap32_id by (unfold representable in *; lia).
  destruct (value - 1 <? min) eqn:E1;
    [apply Z.ltb_lt in E1; lia | apply Z.ltb_ge in E1].
  destruct (max <? value - 1) eqn:E2; [apply Z.ltb_lt in E2|]; lia.
Qed.

(** Repeated [operator++] and [operator--] in clamp mode. *)
Lemma clamp_incs (k : integral) (n : nat) :
  forall d : @DB.t (ival k) false,
    let min := DB.min_ d in
    let max := DB.max_ d in
    let value := DB.value_ d in
    representable k min -> representable k max ->
    min <= value <= max -> max < T_MAX k ->
    dynamic_writes d (repeat w_inc n)
    = DB.Build false (Z.min (value + Z.of_nat n) max) min max.
Proof.
  induction n as [|n IH]; intros d min max value Hmin Hmax Hin Hlt.
  - cbn [repeat dynamic_writes fold_left].
    destruct d as [v lo hi]; cbn in *; f_equal; lia.
  - cbn [repeat]. unfold dynamic_writes; cbn [fold_left dynamic_write].
    fold (dynamic_writes (DB.inc d) (repeat w_inc n)).
    rewrite clamp_inc_step by assumption. fold min max value.
    rewrite IH; cbn [DB.min_ DB.max_ DB.value_]; try assumption; try lia.
    f_equal; lia.
Qed.

Lemma clamp_decs (k : integral) (n : nat) :
  forall d : @DB.t (ival k) false,
    let min := DB.min_ d in
    let max := DB.max_ d in
    let value := DB.value_ d in
    representable k min -> representable k max ->
    min <= value <= max -> T_MIN k < min ->
    dynamic_writes d (repeat w_dec n)
    = DB.Build false (Z.max (value - Z.of_nat n) min) min max.
Proof.
  induction n as [|n IH]; intros d min max value Hmin Hmax Hin Hlt.
  - cbn [repeat dynamic_writes fold_left].
    destruct d as [v lo hi]; cbn in *; f_equal; lia.
  - cbn [repeat]. unfold dynamic_writes; cbn [fold_left dynamic_write].
    fold (dynamic_writes (DB.dec d) (repeat w_dec n)).
    rewrite clamp_dec_step by assumption. fold min max value.
    rewrite IH; cbn [DB.min_ DB.max_ DB.value_]; try assumption; try lia.
    f_equal; lia.
Qed.

(** A [StaticallyBounded] over an integral type whose template arguments are
    representable in it follows the [DynamicallyBounded] with those bounds. *)
Lemma static_as_dynamic (k : integral) (lo hi : Z) (wrap : bool)
    (s : @SB.t (ival k) lo hi wrap) (ws : list (write (ival k))) :
  representable k lo -> representable k hi ->
  SB.value_ (static_writes s ws)
  = DB.value_ (dynamic_writes (DB.Build wrap (SB.value_ s) lo hi) ws).
Proof.
  intros Hlo Hhi; symmetry.
  apply (writes_agree lo hi wrap ws s (DB.Build wrap (SB.value_ s) lo hi));
    cbn [DB.value_ DB.min_ DB.max_ static_cast integral_numeric];
    [reflexivity | |]; symmetry; apply wrap32_id; assumption.
Qed.

Lemma static_eq {T : Type} (min max : Z) (wrap : bool) (a b : @SB.t T min max wrap) :
  SB.value_ a = SB.value_ b -> a = b.
Proof. destruct a, b; cbn; intros ->; reflexivity. Qed.

(** X6: in wrap mode over an integral type, on a range that stops short of
    the largest value of the type, [operator++] walks the range cyclically:
    from a value inside the range, [n] increments lead to
    [min + (value - min + n) mod length] with [length = max - min + 1], and
    [length] increments lead back to the object one started from. *)
Theorem wrap_increment_cycles :
  forall (k : integral) (lo hi : Z) (n : nat),
    representable k lo -> representable k hi ->
    representable k (hi - lo + 1) -> hi < T_MAX k ->
    (forall d : @DB.t (ival k) true,
        DB.min_ d = lo -> DB.max_ d = hi -> lo <= DB.value_ d <= hi ->
        DB.value_ (dynamic_writes d (repeat w_inc n))
        = lo + (DB.value_ d - lo + Z.of_nat n) mod (hi - lo + 1) /\
        dynamic_writes d (repeat w_inc (Z.to_nat (hi - lo + 1))) = d)
    /\
    (forall s : @SB.t (ival k) lo hi true,
        lo <= SB.value_ s <= hi ->
        SB.value_ (static_writes s (repeat w_inc n))
        = lo + (SB.value_ s - lo + Z.of_nat n) mod (hi - lo + 1) /\
        static_writes s (repeat w_inc (Z.to_nat (hi - lo + 1))) = s).
Proof.
  intros k lo hi n Hlo Hhi Hlen Hlt.
  assert (D : forall (m : nat) (v : Z),
             lo <= v <= hi ->
             dynamic_writes (DB.Build (T := ival k) true v lo hi) (repeat w_inc m)
             = DB.Build true (lo + (v - lo + Z.of_nat m) mod (hi - lo + 1)) lo hi).
  { intros m v Hv; apply (wrap_incs k m (DB.Build true v lo hi)); assumption. }
  assert (C : forall v : Z,
             lo <= v <= hi ->
             lo + (v - lo + Z.of_nat (Z.to_nat (hi - lo + 1))) mod (hi - lo + 1) = v).
  { intros v Hv; rewrite Z2Nat.id by lia.
    replace (v - lo + (hi - lo + 1)) with (v - lo + 1 * (hi - lo + 1)) by lia.
    rewrite Z_mod_plus_full, Z.mod_small by lia; lia. }
  split.
  - intros [v mn mx] Emn Emx Hin; cbn [DB.min_ DB.max_ DB.value_] in *; subst mn mx.
    rewrite !D by assumption; cbn [DB.value_].
    split; [reflexivity | rewrite C by assumption; reflexivity].
  - intros s Hin; split.
    + rewrite static_as_dynamic, D by assumption; reflexivity.
    + apply static_eq.
      rewrite static_as_dynamic, D by assumption; cbn [DB.value_]; apply C, Hin.
Qed.

Lemma wrap_increment_cycles_witness :
  let d := DB.make (T := ival int) true 5 0 11 in
  representable int 0 /\ representable int 11 /\ representable int (11 - 0 + 1) /\
  11 < T_MAX int /\
  DB.value_ (dynamic_writes d (repeat w_inc 15)) = 8 /\
  dynamic_writes d (repeat w_inc 12) = d.
Proof.
  intros d.
  assert (R0 : representable int 0) by (apply representable_small; lia).
  assert (R11 : representable int 11) by (apply representable_small; lia).
  assert (R12 : representable int (11 - 0 + 1)) by (apply representable_small; lia).
  assert (Hlt : 11 < T_MAX int) by (cbn; lia).
  assert (Hin : 0 <= DB.value_ d <= 11) by (cbn; lia).
  destruct (wrap_increment_cycles int 0 11 15 R0 R11 R12 Hlt) as [HD _].
  repeat (split; [assumption|]).
  split; [exact (proj1 (HD d eq_refl eq_refl Hin))
         | exact (proj2 (HD d eq_refl eq_refl Hin))].
Defined.

(** X7: in wrap mode over [int], on a range strictly inside the type,
    [operator--] undoes [operator++] and [operator++] undoes [operator--];
    incrementing at [max] gives [min] and decrementing at [min] gives
    [max]. *)
Theorem wrap_decrement_undoes_increment :
  forall lo hi : Z,
    T_MIN int < lo -> hi < T_MAX int -> representable int (hi - lo + 1) ->
    (forall d : @DB.t (ival int) true,
        DB.min_ d = lo -> DB.max_ d = hi -> lo <= DB.value_ d <= hi ->
        DB.dec (DB.inc d) = d /\ DB.inc (DB.dec d) = d /\
        (DB.value_ d = hi -> DB.value_ (DB.inc d) = lo) /\
        (DB.value_ d = lo -> DB.value_ (DB.dec d) = hi))
    /\
    (forall s : @SB.t (ival int) lo hi true,
        lo <= SB.value_ s <= hi ->
        static_writes s [w_inc; w_dec] = s /\ static_writes s [w_dec; w_inc] = s).
Proof.
  intros lo hi Hlo Hhi Hlen.
  assert (D : forall d : @DB.t (ival int) true,
             DB.min_ d = lo -> DB.max_ d = hi -> lo <= DB.value_ d <= hi ->
             DB.dec (DB.inc d) = d /\ DB.inc (DB.dec d) = d /\
             (DB.value_ d = hi -> DB.value_ (DB.inc d) = lo) /\
             (DB.value_ d = lo -> DB.value_ (DB.dec d) = hi)).
  { intros [v mn mx] Emn Emx Hin; cbn [DB.min_ DB.max_ DB.value_] in *; subst mn mx.
    assert (Rlo : representable int lo) by (unfold representable in *; lia).
    assert (Rhi : representable int hi) by (unfold representable in *; lia).
    pose proof (wrap_inc_step int (DB.Build true v lo hi) Rlo Rhi Hlen Hin Hhi) as EI.
    pose proof (wrap_dec_step_int (DB.Build true v lo hi) Rlo Rhi Hlen Hin Hlo) as ED.
    cbn [DB.min_ DB.max_ DB.value_] in EI, ED.
    assert (BI : 0 <= (v - lo + 1) mod (hi - lo + 1) < hi - lo + 1)
      by (apply Z.mod_pos_bound; lia).
    assert (BD : 0 <= (v - lo - 1) mod (hi - lo + 1) < hi - lo + 1)
      by (apply Z.mod_pos_bound; lia).
    split; [|split; [|split]].
    - rewrite EI, wrap_dec_step_int; cbn [DB.min_ DB.max_ DB.value_];
        try assumption; try lia.
      f_equal.
      replace (lo + (v - lo + 1) mod (hi - lo + 1) - lo - 1)
        with ((v - lo + 1) mod (hi - lo + 1) - 1) by lia.
      rewrite Zminus_mod_idemp_l.
      replace (v - lo + 1 - 1) with (v - lo) by lia.
      rewrite Z.mod_small by lia; replace (lo + (v - lo)) with v by lia; reflexivity.
    - rewrite ED, wrap_inc_step; cbn [DB.min_ DB.max_ DB.value_];
        try assumption; try lia.
      f_equal.
      replace (lo + (v - lo - 1) mod (hi - lo + 1) - lo + 1)
        with ((v - lo - 1) mod (hi - lo + 1) + 1) by lia.
      rewrite Zplus_mod_idemp_l.
      replace (v - lo - 1 + 1) with (v - lo) by lia.
      rewrite Z.mod_small by lia; replace (lo + (v - lo)) with v by lia; reflexivity.
    - intros ->; rewrite EI; cbn [DB.value_].
      rewrite Z_mod_same_full; lia.
    - intros ->; rewrite ED; cbn [DB.value_].
      replace (lo - lo - 1) with (hi - lo + (-1) * (hi - lo + 1)) by lia.
      rewrite Z_mod_plus_full, Z.mod_small by lia; lia. }
  split; [exact D|].
  intros s Hin.
  assert (Rlo : representable int lo) by (unfold representable in *; lia).
  assert (Rhi : representable int hi) by (unfold representable in *; lia).
  destruct (D (DB.Build true (SB.value_ s) lo hi) eq_refl eq_refl Hin) as (E1 & E2 & _).
  split; apply static_eq; rewrite static_as_dynamic by assumption;
    unfold dynamic_writes; cbn [fold_left dynamic_write];
    [rewrite E1 | rewrite E2]; reflexivity.
Qed.

Lemma wrap_decrement_undoes_increment_witness :
  let d := DB.make (T := ival int) true 11 0 11 in
  T_MIN int < 0 /\ 11 < T_MAX int /\ representable int (11 - 0 + 1) /\
  DB.value_ (DB.inc d) = 0 /\ DB.dec (DB.inc d) = d.
Proof.
  intros d.
  assert (H1 : T_MIN int < 0) by (cbn; lia).
  assert (H2 : 11 < T_MAX int) by (cbn; lia).
  assert (H3 : representable int (11 - 0 + 1)) by (apply representable_small; lia).
  assert (Hin : 0 <= DB.value_ d <= 11) by (cbn; lia).
  destruct (wrap_decrement_undoes_increment 0 11 H1 H2 H3) as [HD _].
  destruct (HD d eq_refl eq_refl Hin) as (E1 & _ & E3 & _).
  repeat (split; [assumption|]).
  split; [exact (E3 eq_refl) | exact E1].
Defined.

(** X8: at [unsigned] the subtraction of [operator--] wraps around the
    type, not around the range.  In wrap mode, decrementing a value that sits
    on [min] stores [min + (2^32 - 1) mod length], [length = max - min + 1];
    that is [max] exactly when [length] divides 2^32. *)
Theorem wrap_decrement_unsigned_at_min :
  forall lo hi : Z,
    representable unsigned lo -> representable unsigned hi ->
    representable unsigned (hi - lo + 1) -> lo <= hi ->
    (forall d : @DB.t (ival unsigned) true,
        DB.min_ d = lo -> DB.max_ d = hi -> DB.value_ d = lo ->
        DB.value_ (DB.dec d) = lo + (2 ^ 32 - 1) mod (hi - lo + 1) /\
        (DB.value_ (DB.dec d) = hi <-> 2 ^ 32 mod (hi - lo + 1) = 0))
    /\
    (forall s : @SB.t (ival unsigned) lo hi true,
        SB.value_ s = lo ->
        SB.value_ (static_write s w_dec) = lo + (2 ^ 32 - 1) mod (hi - lo + 1) /\
        (SB.value_ (static_write s w_dec) = hi <-> 2 ^ 32 mod (hi - lo + 1) = 0)).
Proof.
  intros lo hi Rlo Rhi Rlen Hle.
  assert (M : lo + (2 ^ 32 - 1) mod (hi - lo + 1) = hi <-> 2 ^ 32 mod (hi - lo + 1) = 0).
  { set (L := hi - lo + 1) in *. assert (HL : 0 < L) by (unfold L; lia).
    split; intros E.
    - assert (E' : (2 ^ 32 - 1) mod L = L - 1) by (unfold L in *; lia).
      replace (2 ^ 32) with (2 ^ 32 - 1 + 1) by lia.
      rewrite <- Zplus_mod_idemp_l, E'.
      replace (L - 1 + 1) with L by lia. apply Z_mod_same_full.
    - rewrite <- Zminus_mod_idemp_l, E.
      replace (0 - 1) with (L - 1 + (-1) * L) by lia.
      rewrite Z_mod_plus_full, Z.mod_small by lia. unfold L; lia. }
  assert (D : forall d : @DB.t (ival unsigned) true,
             DB.min_ d = lo -> DB.max_ d = hi -> DB.value_ d = lo ->
             DB.value_ (DB.dec d) = lo + (2 ^ 32 - 1) mod (hi - lo + 1)).
  { intros [v mn mx] Emn Emx Ev; cbn [DB.min_ DB.max_ DB.value_] in *; subst mn mx v.
    exact (f_equal DB.value_
             (wrap_dec_step_unsigned_at_min (DB.Build true lo lo hi)
                Rlo Rhi Rlen Hle eq_refl)). }
  split.
  - intros d Emn Emx Ev; rewrite (D d Emn Emx Ev); split; [reflexivity | exact M].
  - intros s Ev.
    pose proof (static_as_dynamic unsigned lo hi true s [w_dec] Rlo Rhi) as E.
    unfold static_writes, dynamic_writes in E; cbn [fold_left dynamic_write] in E.
    rewrite E, (D (DB.Build true (SB.value_ s) lo hi) eq_refl eq_refl Ev).
    split; [reflexivity | exact M].
Qed.

Lemma wrap_decrement_unsigned_at_min_witness :
  let d := DB.make (T := ival unsigned) true 3 3 14 in
  representable unsigned 3 /\ representable unsigned 14 /\
  representable unsigned (14 - 3 + 1) /\ 3 <= 14 /\
  DB.value_ (DB.dec d) = 6 /\ DB.value_ (DB.dec d) <> 14.
Proof.
  intros d.
  assert (R3 : representable unsigned 3) by (apply representable_small; lia).
  assert (R14 : representable unsigned 14) by (apply representable_small; lia).
  assert (R12 : representable unsigned (14 - 3 + 1)) by (apply representable_small; lia).
  assert (Hle : 3 <= 14) by lia.
  destruct (wrap_decrement_unsigned_at_min 3 14 R3 R14 R12 Hle) as [HD _].
  destruct (HD d eq_refl eq_refl eq_refl) as [E1 E2].
  split; [exact R3|]. split; [exact R14|]. split; [exact R12|]. split; [exact Hle|].
  split; [exact E1|].
  intros E; apply E2 in E; vm_compute in E; discriminate E.
Defined.

(** X9: in clamp mode over an integral type, [operator++] and [operator--]
    saturate: from a value inside the range, [n] increments lead to
    [min(value + n, max)] when [max] is below the largest value of the type,
    and [n] decrements lead to [max(value - n, min)] when [min] is above the
    smallest. *)
Theorem clamp_steps_saturate :
  forall (k : integral) (lo hi : Z) (n : nat),
    representable k lo -> representable k hi ->
    (forall d : @DB.t (ival k) false,
        DB.min_ d = lo -> DB.max_ d = hi -> lo <= DB.value_ d <= hi ->
        (hi < T_MAX k ->
         DB.value_ (dynamic_writes d (repeat w_inc n))
         = Z.min (DB.value_ d + Z.of_nat n) hi) /\
        (T_MIN k < lo ->
         DB.value_ (dynamic_writes d (repeat w_dec n))
         = Z.max (DB.value_ d - Z.of_nat n) lo))
    /\
    (forall s : @SB.t (ival k) lo hi false,
        lo <= SB.value_ s <= hi ->
        (hi < T_MAX k ->
         SB.value_ (static_writes s (repeat w_inc n))
         = Z.min (SB.value_ s + Z.of_nat n) hi) /\
        (T_MIN k < lo ->
         SB.value_ (static_writes s (repeat w_dec n))
         = Z.max (SB.value_ s - Z.of_nat n) lo)).
Proof.
  intros k lo hi n Rlo Rhi.
  assert (D : forall v : Z,
             lo <= v <= hi ->
             (hi < T_MAX k ->
              DB.value_ (dynamic_writes (DB.Build (T := ival k) false v lo hi)
                           (repeat w_inc n))
              = Z.min (v + Z.of_nat n) hi) /\
             (T_MIN k < lo ->
              DB.value_ (dynamic_writes (DB.Build (T := ival k) false v lo hi)
                           (repeat w_dec n))
              = Z.max (v - Z.of_nat n) lo)).
  { intros v Hv; split; intros Hlt.
    - exact (f_equal DB.value_ (clamp_incs k n (DB.Build false v lo hi) Rlo Rhi Hv Hlt)).
    - exact (f_equal DB.value_ (clamp_decs k n (DB.Build false v lo hi) Rlo Rhi Hv Hlt)). }
  split.
  - intros [v mn mx] Emn Emx Hin; cbn [DB.min_ DB.max_ DB.value_] in *; subst mn mx.
    apply D, Hin.
  - intros s Hin; rewrite !static_as_dynamic by assumption; apply D, Hin.
Qed.

Lemma clamp_steps_saturate_witness :
  let d := DB.make (T := ival int) false 5 0 10 in
  representable int 0 /\ representable int 10 /\
  DB.value_ (dynamic_writes d (repeat w_inc 3)) = 8 /\
  DB.value_ (dynamic_writes d (repeat w_inc 7)) = 10 /\
  DB.value_ (dynamic_writes d (repeat w_dec 7)) = 0.
Proof.
  intros d.
  assert (R0 : representable int 0) by (apply representable_small; lia).
  assert (R10 : representable int 10) by (apply representable_small; lia).
  assert (Hin : 0 <= DB.value_ d <= 10) by (cbn; lia).
  assert (Hhi : 10 < T_MAX int) by (cbn; lia).
  assert (Hlo : T_MIN int < 0) by (cbn; lia).
  split; [exact R0|]. split; [exact R10|]. split; [|split].
  - exact (proj1 (proj1 (clamp_steps_saturate int 0 10 3 R0 R10) d eq_refl eq_refl Hin) Hhi).
  - exact (proj1 (proj1 (clamp_steps_saturate int 0 10 7 R0 R10) d eq_refl eq_refl Hin) Hhi).
  - exact (proj2 (proj1 (clamp_steps_saturate int 0 10 7 R0 R10) d eq_refl eq_refl Hin) Hlo).
Defined.

(** X10: at [unsigned] in clamp mode the arithmetic of [operator--] and
    [operator++] wraps around the type before the value is clamped:
    decrementing the value 0 stores [max], and incrementing the value
    [2^32 - 1] stores [min]. *)
Theorem clamp_unsigned_steps_at_type_ends :
  (forall d : @DB.t (ival unsigned) false,
      representable unsigned (DB.min_ d) -> representable unsigned (DB.max_ d) ->
      DB.min_ d <= DB.value_ d <= DB.max_ d ->
      (DB.value_ d = 0 -> DB.value_ (DB.dec d) = DB.max_ d) /\
      (DB.value_ d = 2 ^ 32 - 1 -> DB.value_ (DB.inc d) = DB.min_ d))
  /\
  (forall (lo hi : Z) (s : @SB.t (ival unsigned) lo hi false),
      representable unsigned lo -> representable unsigned hi ->
      lo <= SB.value_ s <= hi ->
      SB.value_ s = 0 -> SB.value_ (static_write s w_dec) = hi).
Proof.
  assert (D : forall d : @DB.t (ival unsigned) false,
             representable unsigned (DB.min_ d) -> representable unsigned (DB.max_ d) ->
             DB.min_ d <= DB.value_ d <= DB.max_ d ->
             (DB.value_ d = 0 -> DB.value_ (DB.dec d) = DB.max_ d) /\
             (DB.value_ d = 2 ^ 32 - 1 -> DB.value_ (DB.inc d) = DB.min_ d)).
  { intros [v mn mx] Rmn Rmx Hin; cbn [DB.min_ DB.max_ DB.value_] in *.
    unfold representable in *; cbn [T_MIN T_MAX] in *.
    split; intros ->; unfold DB.dec, DB.inc; rewrite dynamic_clamp_assign;
      cbn [DB.min_ DB.max_ DB.value_ addT subT static_cast integral_numeric wrap32].
    - change ((0 - 1 mod 2 ^ 32) mod 2 ^ 32) with (2 ^ 32 - 1).
      destruct (2 ^ 32 - 1 <? mn) eqn:E1; [apply Z.ltb_lt in E1; lia|].
      destruct (mx <? 2 ^ 32 - 1) eqn:E2; [reflexivity|].
      apply Z.ltb_ge in E2; lia.
    - change ((2 ^ 32 - 1 + 1 mod 2 ^ 32) mod 2 ^ 32) with 0.
      destruct (0 <? mn) eqn:E1; [reflexivity|].
      apply Z.ltb_ge in E1.
      destruct (mx <? 0) eqn:E2; [apply Z.ltb_lt in E2|]; lia. }
  split; [exact D|].
  intros lo hi s Rlo Rhi Hin Ev.
  pose proof (static_as_dynamic unsigned lo hi false s [w_dec] Rlo Rhi) as E.
  unfold static_writes, dynamic_writes in E; cbn [fold_left dynamic_write] in E.
  rewrite E.
  exact (proj1 (D (DB.Build false (SB.value_ s) lo hi) Rlo Rhi Hin) Ev).
Qed.

Lemma clamp_unsigned_steps_at_type_ends_witness :
  let d := DB.make (T := ival unsigned) false 0 0 10 in
  representable unsigned 0 /\ representable unsigned 10 /\
  d = DB.Build false 0 0 10 /\ DB.value_ (DB.dec d) = 10.
Proof.
  intros d.
  assert (R0 : representable unsigned 0) by (apply representable_small; lia).
  assert (R10 : representable unsigned 10) by (apply representable_small; lia).
  assert (Hin : DB.min_ d <= DB.value_ d <= DB.max_ d) by (cbn; lia).
  split; [exact R0|]. split; [exact R10|]. split; [reflexivity|].
  exact (proj1 (proj1 clamp_unsigned_steps_at_type_ends d R0 R10 Hin) eq_refl).
Defined.

(** X11: in wrap mode over [int], [operator-=] undoes [operator+=] and the
    other way round, for a value inside the range, when no intermediate
    result overflows (here: bounds and operand of magnitude at most 2^29).
    In clamp mode it does not, see [clamp_sub_does_not_undo_add]. *)
Theorem wrap_sub_undoes_add :
  forall (lo hi a : Z),
    Z.abs lo <= 2 ^ 29 -> Z.abs hi <= 2 ^ 29 -> Z.abs a <= 2 ^ 29 ->
    (forall d : @DB.t (ival int) true,
        DB.min_ d = lo -> DB.max_ d = hi -> lo <= DB.value_ d <= hi ->
        DB.sub_assign (DB.add_assign d a) a = d /\
        DB.add_assign (DB.sub_assign d a) a = d)
    /\
    (forall s : @SB.t (ival int) lo hi true,
        lo <= SB.value_ s <= hi ->
        static_writes s [w_add a; w_sub a] = s /\
        static_writes s [w_sub a; w_add a] = s).
Proof.
  intros lo hi a Hlo Hhi Ha.
  assert (P29 : 2 ^ 29 = 536870912) by reflexivity.
  assert (R : forall z, Z.abs z <= 4 * 2 ^ 29 - 1 -> representable int z).
  { intros z Hz; unfold representable; cbn [T_MIN T_MAX].
    change (2 ^ 31) with (4 * 2 ^ 29); lia. }
  assert (A : forall v w : Z,
             lo <= hi -> Z.abs w <= 2 * 2 ^ 29 ->
             DB.assign (DB.Build (T := ival int) true v lo hi) (wrap32 int w)
             = DB.Build true (lo + (w - lo) mod (hi - lo + 1)) lo hi).
  { intros v w Hle Hw.
    rewrite (wrap32_id int w) by (apply R; lia).
    rewrite dynamic_wrap_assign_mod; cbn [DB.min_ DB.max_ DB.value_];
      try (apply R; lia); try lia.
    rewrite wrap32_id by (apply R; lia). reflexivity. }
  assert (D : forall v : Z,
             lo <= v <= hi ->
             DB.sub_assign (DB.add_assign (DB.Build (T := ival int) true v lo hi) a) a
             = DB.Build true v lo hi /\
             DB.add_assign (DB.sub_assign (DB.Build (T := ival int) true v lo hi) a) a
             = DB.Build true v lo hi).
  { intros v Hv.
    assert (B1 : 0 <= (v + a - lo) mod (hi - lo + 1) < hi - lo + 1)
      by (apply Z.mod_pos_bound; lia).
    assert (B2 : 0 <= (v - a - lo) mod (hi - lo + 1) < hi - lo + 1)
      by (apply Z.mod_pos_bound; lia).
    unfold DB.sub_assign, DB.add_assign.
    cbn [addT subT integral_numeric DB.value_].
    repeat (rewrite A by lia; cbn [DB.value_]).
    split.
    - replace (lo + (v + a - lo) mod (hi - lo + 1) - a - lo)
        with ((v + a - lo) mod (hi - lo + 1) - a) by lia.
      rewrite Zminus_mod_idemp_l.
      replace (v + a - lo - a) with (v - lo) by lia.
      rewrite Z.mod_small by lia.
      replace (lo + (v - lo)) with v by lia; reflexivity.
    - replace (lo + (v - a - lo) mod (hi - lo + 1) + a - lo)
        with ((v - a - lo) mod (hi - lo + 1) + a) by lia.
      rewrite Zplus_mod_idemp_l.
      replace (v - a - lo + a) with (v - lo) by lia.
      rewrite Z.mod_small by lia.
      replace (lo + (v - lo)) with v by lia; reflexivity. }
  split.
  - intros [v mn mx] Emn Emx Hin; cbn [DB.min_ DB.max_ DB.value_] in *; subst mn mx.
    apply D, Hin.
  - intros s Hin.
    destruct (D (SB.value_ s) Hin) as [E1 E2].
    split; apply static_eq; rewrite static_as_dynamic by (apply R; lia);
      unfold dynamic_writes; cbn [fold_left dynamic_write];
      [rewrite E1 | rewrite E2]; reflexivity.
Qed.

Lemma wrap_sub_undoes_add_witness :
  let d := DB.make (T := ival int) true 5 0 11 in
  Z.abs 0 <= 2 ^ 29 /\ Z.abs 11 <= 2 ^ 29 /\ Z.abs 100 <= 2 ^ 29 /\
  DB.value_ (DB.add_assign d 100) = 9 /\
  DB.sub_assign (DB.add_assign d 100) 100 = d.
Proof.
  intros d.
  assert (H0 : Z.abs 0 <= 2 ^ 29) by (vm_compute; discriminate).
  assert (H11 : Z.abs 11 <= 2 ^ 29) by (vm_compute; discriminate).
  assert (H100 : Z.abs 100 <= 2 ^ 29) by (vm_compute; discriminate).
  assert (Hin : 0 <= DB.value_ d <= 11) by (cbn; lia).
  split; [exact H0|]. split; [exact H11|]. split; [exact H100|].
  split; [reflexivity|].
  exact (proj1 (proj1 (wrap_sub_undoes_add 0 11 100 H0 H11 H100) d eq_refl eq_refl Hin)).
Defined.

(** In clamp mode the upper bound absorbs the addition:
    [DynamicallyBounded<int>(5, 0, 10)] after [+= 7] holds 10 and after
    [-= 7] holds 3. *)
Example clamp_sub_does_not_undo_add :
  let c := DB.make (T := ival int) false 5 0 10 in
  DB.value_ (DB.add_assign c 7) = 10 /\
  DB.value_ (DB.sub_assign (DB.add_assign c 7) 7) = 3.
Proof. split; reflexivity. Qed.

(* ================================================================== *)
(** * [normalize()] on a range of one point *)
(* ================================================================== *)

(** X12: on a range of one point ([min = max]) [normalize()] divides by
    zero in binary32 and never returns a number.  It is NaN when the value
    sits on the bound, which is the case for every object a constructor
    builds with [min = max]; with a stale value above or below the bound it
    is plus or minus infinity. *)
Theorem normalize_one_point_range :
  forall (k : integral) (wrap : bool),
    (forall d : @DB.t (ival k) wrap,
        DB.min_ d = DB.max_ d ->
        (DB.value_ d = DB.min_ d -> DB.normalize d = S754_nan) /\
        (DB.min_ d < DB.value_ d -> representable k (DB.value_ d - DB.min_ d) ->
         DB.normalize d = S754_infinity false) /\
        (DB.value_ d < DB.min_ d -> representable k (DB.value_ d - DB.min_ d) ->
         DB.normalize d = S754_infinity true))
    /\
    (forall init_val m : ival k,
        DB.normalize (DB.make wrap init_val m m) = S754_nan)
    /\
    (forall (m : Z) (init_val : ival k),
        SB.normalize (SB.make (T := ival k) m m wrap init_val) = S754_nan).
Proof.
  intros k wrap.
  assert (W0 : wrap32 k 0 = 0) by (destruct k; reflexivity).
  assert (C : forall v c : Z, std_clamp (T := ival k) v c c = c).
  { intros v c; unfold std_clamp; cbn [ltT integral_numeric].
    destruct (v <? c) eqn:E1; [reflexivity|].
    destruct (c <? v) eqn:E2; [reflexivity|].
    apply Z.ltb_ge in E1, E2; lia. }
  split; [|split].
  - intros [v mn mx] E; cbn [DB.min_ DB.max_ DB.value_] in *; subst mx.
    unfold DB.normalize, to_float, integral_float_castable.
    cbn [DB.min_ DB.max_ DB.value_ subT integral_numeric].
    rewrite (Z.sub_diag mn), W0.
    split; [|split].
    + intros ->; rewrite Z.sub_diag, W0; reflexivity.
    + intros Hlt Hr; rewrite (wrap32_id k _ Hr).
      destruct (float_of_Z_finite (v - mn)) as (m & e & ->); [|reflexivity].
      unfold representable in Hr; destruct k; cbn [T_MIN T_MAX] in Hr; lia.
    + intros Hlt Hr; rewrite (wrap32_id k _ Hr).
      destruct (float_of_Z_finite_neg (v - mn)) as (m & e & ->); [|reflexivity].
      unfold representable in Hr; destruct k; cbn [T_MIN T_MAX] in Hr; lia.
  - intros init_val m.
    unfold DB.normalize, DB.make, to_float, integral_float_castable.
    cbn [DB.min_ DB.max_ DB.value_ subT integral_numeric].
    rewrite C.
    assert (E : std_max (T := ival k) m m = m)
      by (unfold std_max; destruct (ltT m m); reflexivity).
    rewrite E, Z.sub_diag, W0; reflexivity.
  - intros m init_val.
    unfold SB.normalize, SB.make, to_float, integral_float_castable.
    cbn [SB.value_ subT integral_numeric].
    rewrite C, !Z.sub_diag, W0; reflexivity.
Qed.

Lemma normalize_one_point_range_witness :
  let d := DB.set_min (DB.make (T := ival int) false 5 0 7) 7 in
  d = DB.Build false 5 7 7 /\
  DB.min_ d = DB.max_ d /\ DB.value_ d < DB.min_ d /\
  representable int (DB.value_ d - DB.min_ d) /\
  DB.normalize d = S754_infinity true.
Proof.
  intros d.
  assert (Hr : representable int (DB.value_ d - DB.min_ d))
    by (unfold representable; cbn; lia).
  assert (Hlt : DB.value_ d < DB.min_ d) by (cbn; lia).
  split; [reflexivity|]. split; [reflexivity|]. split; [exact Hlt|]. split; [exact Hr|].
  exact (proj2 (proj2 (proj1 (normalize_one_point_range int false) d eq_refl)) Hlt Hr).
Defined.

(* ================================================================== *)
(** * [float_cmp] and [approx] *)
(* ================================================================== *)

Lemma SFabs_opp (x : float) : SFabs (SFopp x) = SFabs x.
Proof. destruct x; reflexivity. Qed.

Lemma abs_binary_normalize_opp (z e : Z) :
  SFabs (binary_normalize float_prec float_emax (- z) e false)
  = SFabs (binary_normalize float_prec float_emax z e false).
Proof.
  destruct z as [|p|p]; cbn [Z.opp binary_normalize]; [reflexivity | |];
    unfold binary_round;
    destruct (shl_align p e _) as [mz ez];
    rewrite binary_round_aux_opp, SFabs_opp; reflexivity.
Qed.

(** [|a - b|] and [|b - a|] are the same float: rounding to nearest is
    symmetric about zero. *)
Lemma float_abs_sub_comm (a b : float) :
  float_abs (float_sub a b) = float_abs (float_sub b a).
Proof.
  unfold float_abs, float_sub.
  destruct a as [sa|sa| |sa ma ea], b as [sb|sb| |sb mb eb];
    try reflexivity;
    try (destruct sa, sb; reflexivity);
    try (destruct sa; reflexivity); try (destruct sb; reflexivity).
  cbn [SFsub]. rewrite (Z.min_comm eb ea).
  rewrite <- abs_binary_normalize_opp. f_equal. f_equal. lia.
Qed.

Lemma float_lt_abs_positive (x m : float) :
  float_lt (float_abs x) m = true ->
  is_finite x = true /\ float_lt float_zero m = true.
Proof.
  unfold float_lt, SFltb, float_abs.
  destruct x as [sx|sx| |sx mx ex], m as [sm|sm| |sm mm em];
    try destruct sm; cbn [SFabs SFcompare is_finite float_zero];
    try discriminate; intros _; split; reflexivity.
Qed.

(** The default margin is the binary32 number nearest to 1/10000, and it is
    positive. *)
Example default_margin_value :
  float_div (float_of_Z 1) (float_of_Z 10000) = approx.default_margin /\
  float_lt float_zero approx.default_margin = true.
Proof. split; vm_compute; reflexivity. Qed.

(** X13: approximate equality is symmetric in the two numbers compared:
    [float_cmp(m)(a, b)] is [float_cmp(m)(b, a)], [approx(a).margin(m) == b]
    is [approx(b).margin(m) == a], and the two spellings [lhs == approx] and
    [approx == lhs] (likewise [!=]) agree. *)
Theorem approx_symmetric :
  forall m a b : float,
    float_cmp m a b = float_cmp m b a /\
    approx.operator_eq (approx.margin (approx.make a) m) b
    = approx.operator_eq (approx.margin (approx.make b) m) a /\
    approx.friend_operator_eq a (approx.margin (approx.make b) m)
    = approx.operator_eq (approx.margin (approx.make a) m) b /\
    approx.friend_operator_ne a (approx.margin (approx.make b) m)
    = approx.operator_ne (approx.margin (approx.make a) m) b.
Proof.
  intros m a b.
  unfold approx.friend_operator_ne, approx.operator_ne, approx.friend_operator_eq,
    approx.operator_eq, float_cmp; cbn [approx.value_ approx.margin_ approx.margin approx.make].
  rewrite (float_abs_sub_comm b a); repeat split; reflexivity.
Qed.

(** X14: two floats compare approximately equal only if both are numbers
    (neither an infinity nor NaN) and the margin is greater than zero; a
    float is approximately equal to itself exactly under these conditions.
    So with the default margin [approx(v) == v] holds for every finite [v],
    and with [.margin(0)] nothing is equal to anything. *)
Theorem approx_equal_conditions :
  forall m a b : float,
    (float_cmp m a b = true ->
     is_finite a = true /\ is_finite b = true /\ float_lt float_zero m = true) /\
    (approx.operator_eq (approx.margin (approx.make a) m) b = true ->
     is_finite a = true /\ is_finite b = true /\ float_lt float_zero m = true) /\
    (approx.operator_eq (approx.margin (approx.make a) m) a = true <->
     is_finite a = true /\ float_lt float_zero m = true) /\
    (is_finite a = true ->
     approx.operator_eq (approx.make a) a = true /\
     approx.operator_ne (approx.make a) a = false).
Proof.
  intros m a b.
  assert (N : forall x y : float,
             float_cmp m x y = true ->
             is_finite x = true /\ is_finite y = true /\ float_lt float_zero m = true).
  { intros x y H; apply float_lt_abs_positive in H; destruct H as [Hf Hm].
    destruct (float_sub_finite x y Hf) as [Hx Hy]; auto. }
  assert (R : forall (x mg : float),
             is_finite x = true -> float_lt float_zero mg = true ->
             float_cmp mg x x = true).
  { intros x mg Hx Hm; unfold float_cmp; rewrite (float_sub_diag x Hx); exact Hm. }
  split; [apply N|]. split; [apply N|]. split; [split|].
  - intros H; destruct (N a a H) as (Ha & _ & Hm); auto.
  - intros [Ha Hm]; exact (R a m Ha Hm).
  - intros Ha.
    assert (E : approx.operator_eq (approx.make a) a = true)
      by exact (R a approx.default_margin Ha eq_refl).
    split; [exact E | unfold approx.operator_ne; rewrite E; reflexivity].
Qed.

Lemma approx_equal_conditions_witness :
  let third := float_div (float_of_Z 1) (float_of_Z 3) in
  let sum := float_div (float_of_Z 333334) (float_of_Z 1000000) in
  float_cmp approx.default_margin third sum = true /\
  float_lt float_zero approx.default_margin = true /\
  is_finite third = true /\
  approx.operator_eq (approx.make third) third = true /\
  approx.operator_eq (approx.make (S754_infinity false)) (S754_infinity false) = false.
Proof.
  intros third sum.
  assert (H : float_cmp approx.default_margin third sum = true) by (vm_compute; reflexivity).
  destruct (approx_equal_conditions approx.default_margin third sum) as (A & _ & _ & D).
  destruct (A H) as (Ha & _ & Hm).
  split; [exact H|]. split; [exact Hm|]. split; [exact Ha|].
  split; [exact (proj1 (D Ha)) | reflexivity].
Defined.

(* ================================================================== *)
(** * [operator/=] *)
(* ================================================================== *)

Lemma integral_div_defined (k : integral) (a b : ival k) :
  0 <= a -> representable k a -> 1 <= b ->
  integral_div k a b = Some (a / b) /\ 0 <= a / b <= a.
Proof.
  intros Ha Ra Hb; unfold integral_div.
  assert (E : (b =? 0) = false) by (apply Z.eqb_neq; lia).
  rewrite E, Z.quot_div_nonneg by lia.
  assert (B : 0 <= a / b <= a).
  { split; [apply Z.div_pos; lia|].
    destruct (Z.eq_dec a 0) as [->|Hn]; [rewrite Z.div_0_l; lia|].
    apply Z.div_le_upper_bound; nia. }
  assert (C : (T_MIN k <=? a / b) && (a / b <=? T_MAX k) = true).
  { apply andb_true_iff; split; apply Z.leb_le;
      unfold representable in Ra; destruct k; cbn [T_MIN T_MAX] in *; lia. }
  rewrite C; split; [reflexivity | exact B].
Qed.

(** X15: [operator/=] over an integral type.  Dividing by zero has no
    defined result.  In clamp mode, on a range that starts at or above zero,
    dividing a value inside the range by [in >= 1] stores
    [max(min, value / in)], the quotient rounded down: the value never grows
    and only the lower bound can take effect. *)
Theorem div_assign_results :
  forall (k : integral),
    (forall (wrap : bool) (d : @DB.t (ival k) wrap), dynamic_div_assign d 0 = None)
    /\
    (forall (lo hi : Z) (wrap : bool) (s : @SB.t (ival k) lo hi wrap),
        static_div_assign s 0 = None)
    /\
    (forall (d : @DB.t (ival k) false) (in_ : ival k),
        representable k (DB.max_ d) ->
        0 <= DB.min_ d -> DB.min_ d <= DB.value_ d <= DB.max_ d -> 1 <= in_ ->
        dynamic_div_assign d in_
        = Some (DB.Build false (Z.max (DB.min_ d) (DB.value_ d / in_))
                  (DB.min_ d) (DB.max_ d)))
    /\
    (forall (lo hi : Z) (s : @SB.t (ival k) lo hi false) (in_ : ival k),
        representable k hi ->
        0 <= lo -> lo <= SB.value_ s <= hi -> 1 <= in_ ->
        static_div_assign s in_
        = Some (ref_this, SB.Build lo hi false (Z.max lo (SB.value_ s / in_)))).
Proof.
  intros k.
  assert (C : forall v q lo hi : Z,
             lo <= v <= hi -> 0 <= q <= v ->
             std_clamp (T := ival k) q lo hi = Z.max lo q).
  { intros v q lo hi Hv Hq; unfold std_clamp; cbn [ltT integral_numeric].
    destruct (q <? lo) eqn:E1; [apply Z.ltb_lt in E1; lia | apply Z.ltb_ge in E1].
    destruct (hi <? q) eqn:E2; [apply Z.ltb_lt in E2|]; lia. }
  split; [reflexivity|]. split; [reflexivity|]. split.
  - intros [v mn mx] in_ Rmx Hmn Hin Hone; cbn [DB.min_ DB.max_ DB.value_] in *.
    assert (Rv : representable k v)
      by (unfold representable in *; destruct k; cbn [T_MIN T_MAX] in *; lia).
    destruct (integral_div_defined k v in_ ltac:(lia) Rv Hone) as [E B].
    unfold dynamic_div_assign; cbn [DB.value_]; rewrite E.
    unfold DB.assign; cbn [DB.min_ DB.max_]; rewrite (C v) by assumption; reflexivity.
  - intros lo hi [v] in_ Rhi Hlo Hin Hone; cbn [SB.value_] in *.
    assert (Rlo : representable k lo)
      by (unfold representable in *; destruct k; cbn [T_MIN T_MAX] in *; lia).
    assert (Rv : representable k v)
      by (unfold representable in *; destruct k; cbn [T_MIN T_MAX] in *; lia).
    destruct (integral_div_defined k v in_ ltac:(lia) Rv Hone) as [E B].
    unfold static_div_assign; cbn [SB.value_]; rewrite E.
    unfold SB.assign; cbn [static_cast integral_numeric].
    rewrite (wrap32_id k lo Rlo), (wrap32_id k hi Rhi), (C v) by assumption; reflexivity.
Qed.

Lemma div_assign_results_witness :
  let d := DB.make (T := ival int) false 7 3 10 in
  representable int (DB.max_ d) /\ 0 <= DB.min_ d /\
  DB.min_ d <= DB.value_ d <= DB.max_ d /\
  dynamic_div_assign d 2 = Some (DB.Build false 3 3 10) /\
  dynamic_div_assign d 4 = Some (DB.Build false 3 3 10) /\
  dynamic_div_assign d 0 = None.
Proof.
  intros d.
  assert (R : representable int (DB.max_ d)) by (apply representable_small; cbn; lia).
  assert (H0 : 0 <= DB.min_ d) by (cbn; lia).
  assert (Hin : DB.min_ d <= DB.value_ d <= DB.max_ d) by (cbn; lia).
  destruct (div_assign_results int) as (Z0 & _ & D & _).
  split; [exact R|]. split; [exact H0|]. split; [exact Hin|].
  split; [exact (D d 2 R H0 Hin ltac:(lia))|].
  split; [exact (D d 4 R H0 Hin ltac:(lia)) | exact (Z0 false d)].
Defined.

(* ================================================================== *)
(** * [StringMaker<std::vector<T>>::convert] *)
(* ================================================================== *)

Lemma append_assoc (a b c : string) :
  String.append (String.append a b) c = String.append a (String.append b c).
Proof. induction a as [|x a IH]; cbn; [reflexivity | rewrite IH; reflexivity]. Qed.

Lemma length_append (a b : string) :
  String.length (String.append a b) = (String.length a + String.length b)%nat.
Proof. induction a as [|x a IH]; cbn; [reflexivity | rewrite IH; reflexivity]. Qed.

Lemma substring_append_l (a b : string) :
  String.substring 0 (String.length a) (String.append a b) = a.
Proof.
  induction a as [|x a IH]; cbn.
  - destruct b; reflexivity.
  - rewrite IH; reflexivity.
Qed.

Lemma c_str_append (a b : string) :
  c_str a = a -> c_str (String.append a b) = String.append a (c_str b).
Proof.
  induction a as [|x a IH]; cbn; [reflexivity|].
  destruct (Ascii.eqb x Ascii.zero); [discriminate|].
  intros E; injection E as E; rewrite (IH E); reflexivity.
Qed.

Lemma c_str_concat (sep : string) (l : list string) :
  c_str sep = sep -> (forall s, In s l -> c_str s = s) ->
  c_str (String.concat sep l) = String.concat sep l.
Proof.
  intros Hsep; induction l as [|s l IH]; intros Hl; [reflexivity|].
  destruct l as [|s' l].
  - apply Hl; left; reflexivity.
  - change (String.concat sep (s :: s' :: l))
      with (String.append s (String.append sep (String.concat sep (s' :: l)))).
    rewrite c_str_append by (apply Hl; left; reflexivity).
    rewrite c_str_append by exact Hsep.
    rewrite IH; [reflexivity|]. intros x Hx; apply Hl; right; exact Hx.
Qed.

(** What the loop has written to the stream. *)
Lemma streamed {T : Type} (toString : T -> string) (value : list T) :
  forall (acc : string) (v0 : T),
    fold_left (fun o v => String.append (String.append o (toString v)) ", ")
      (v0 :: value) acc
    = String.append acc
        (String.append (String.concat ", " (map toString (v0 :: value))) ", ").
Proof.
  induction value as [|v value IH]; intros acc v0.
  - cbn. rewrite append_assoc. reflexivity.
  - change (fold_left _ (v0 :: v :: value) acc)
      with (fold_left (fun o v => String.append (String.append o (toString v)) ", ")
              (v :: value) (String.append (String.append acc (toString v0)) ", ")).
    rewrite (IH _ v). cbn [map String.concat].
    rewrite !append_assoc. reflexivity.
Qed.

(** X16: a vector is printed as its items separated by [", "] between
    braces: the separator the loop writes after the last item is chopped
    off, and the empty vector gives ["{}"].  This holds when no item's text
    contains a NUL character, at which the conversion from [c_str()] would
    stop. *)
Theorem vector_convert_joins :
  forall (T : Type) (toString : T -> string) (value : list T),
    (forall v, In v value -> c_str (toString v) = toString v) ->
    Z.of_nat (String.length (String.concat ", " (map toString value))) + 3 < 2 ^ 64 ->
    StringMaker_vector.convert toString value
    = String.append "{" (String.append (String.concat ", " (map toString value)) "}").
Proof.
  intros T toString value Hn Hsz; destruct value as [|v0 value]; [reflexivity|].
  unfold StringMaker_vector.convert. rewrite (streamed toString value "{"%string v0).
  set (body := String.concat ", " (map toString (v0 :: value))) in *.
  rewrite <- append_assoc.
  set (pre := String.append "{" body).
  assert (L : String.length (String.append pre ", ") = (String.length pre + 2)%nat).
  { rewrite length_append; reflexivity. }
  assert (Lp : String.length pre = S (String.length body)) by reflexivity.
  unfold size_t_sub, resize. rewrite L.
  rewrite Z.mod_small by lia.
  assert (E : (Z.of_nat (String.length pre + 2) - 2 <=? Z.of_nat (String.length pre + 2)) = true)
    by (apply Z.leb_le; lia).
  rewrite E.
  replace (Z.to_nat (Z.of_nat (String.length pre + 2) - 2)) with (String.length pre) by lia.
  rewrite substring_append_l.
  unfold pre. rewrite append_assoc.
  change (String.append "{" (String.append body "}"))
    with (String "{" (String.append body "}")).
  cbn [c_str]. change (Ascii.eqb "{" Ascii.zero) with false. cbv iota.
  rewrite c_str_append; [reflexivity|].
  apply c_str_concat; [reflexivity|].
  intros s Hs; apply in_map_iff in Hs; destruct Hs as (v & <- & Hv); apply Hn, Hv.
Qed.

Lemma vector_convert_joins_witness :
  let value := ["1"; "22"; "333"]%string in
  (forall v, In v value -> c_str v = v) /\
  StringMaker_vector.convert (fun s : string => s) value = "{1, 22, 333}"%string.
Proof.
  intros value.
  assert (Hn : forall v, In v value -> c_str v = v).
  { intros v [<-|[<-|[<-|[]]]]; reflexivity. }
  split; [exact Hn|].
  exact (vector_convert_joins string (fun s => s) value Hn eq_refl).
Defined.

(* ================================================================== *)
(** * [debuggerIsAttached] *)
(* ================================================================== *)

Lemma starts_with_app (needle tail : list ascii) :
  starts_with needle (needle ++ tail) = true.
Proof.
  induction needle as [|n needle IH]; [reflexivity|].
  cbn; rewrite Ascii.eqb_refl, IH; reflexivity.
Qed.

Lemma skipn_app_exact {A : Type} (l tail : list A) :
  skipn (List.length l) (l ++ tail) = tail.
Proof. induction l as [|x l IH]; [reflexivity | exact IH]. Qed.

Lemma strstr_first (needle tail : list ascii) (pre : list ascii) :
  Forall (fun c => Ascii.eqb c Ascii.zero = false) pre ->
  (forall k : nat, (k < List.length pre)%nat ->
     starts_with needle (skipn k (pre ++ needle ++ tail)) = false) ->
  strstr (pre ++ needle ++ tail) needle = Some (needle ++ tail).
Proof.
  induction pre as [|c pre IH]; intros Hz Hk.
  - cbn [app]. destruct (needle ++ tail) eqn:E; cbn [strstr];
      rewrite <- E, starts_with_app; reflexivity.
  - assert (H0 := Hk 0%nat ltac:(cbn; lia)); cbn [skipn] in H0.
    cbn [app strstr] in *. rewrite H0.
    inversion Hz as [|? ? Hc Hz']; subst. rewrite Hc.
    apply IH; [exact Hz'|].
    intros k Hlt; exact (Hk (S k) ltac:(cbn; lia)).
Qed.

Lemma first_after_spaces_skip (ws l : list ascii) :
  Forall (fun c => isspace c = true) ws ->
  first_after_spaces (ws ++ l) = first_after_spaces l.
Proof.
  induction 1 as [|c ws Hc _ IH]; [reflexivity|].
  cbn [app first_after_spaces]; rewrite Hc; exact IH.
Qed.

(** X17: when the bytes read hold the text ["TracerPid:"], the answer is
    decided by the first character after its first occurrence that is not
    white space: a debugger is reported exactly when that character is one of
    the digits 1 to 9.  When only white space follows up to the end of what
    was read, none is reported. *)
Theorem debuggerIsAttached_reads_first_digit :
  forall (pre ws rest : list ascii),
    Forall (fun c => Ascii.eqb c Ascii.zero = false) pre ->
    (forall k : nat, (k < List.length pre)%nat ->
       starts_with tracerPidString
         (skipn k (pre ++ tracerPidString ++ ws ++ rest ++ [Ascii.zero])) = false) ->
    Forall (fun c => isspace c = true) ws ->
    match rest with
    | [] => True
    | c :: _ => isspace c = false /\ (nat_of_ascii c < 128)%nat
    end ->
    debuggerIsAttached (read_returns (pre ++ tracerPidString ++ ws ++ rest))
    = match rest with
      | [] => false
      | c :: _ => (Nat.leb 49 (nat_of_ascii c) && Nat.leb (nat_of_ascii c) 57)%bool
      end.
Proof.
  intros pre ws rest Hz Hk Hws Hc.
  unfold debuggerIsAttached.
  assert (L : Nat.leb (List.length (pre ++ tracerPidString ++ ws ++ rest)) 0 = false).
  { apply Nat.leb_gt. rewrite !length_app. cbn. lia. }
  rewrite L.
  replace ((pre ++ tracerPidString ++ ws ++ rest) ++ [Ascii.zero])
    with (pre ++ tracerPidString ++ (ws ++ rest ++ [Ascii.zero]))
    by (rewrite <- !app_assoc; reflexivity).
  rewrite strstr_first by assumption.
  rewrite skipn_app_exact, first_after_spaces_skip by exact Hws.
  destruct rest as [|c rest]; [reflexivity|].
  destruct Hc as [Hsp _].
  cbn [app first_after_spaces]. rewrite Hsp.
  unfold isdigit.
  destruct (Ascii.eqb_spec c "0") as [->|Hne]; [reflexivity|].
  assert (Hn : nat_of_ascii c <> 48%nat).
  { intros E; apply Hne. rewrite <- (ascii_nat_embedding c), E. reflexivity. }
  cbn [negb]; rewrite andb_true_r.
  destruct (Nat.leb 48 (nat_of_ascii c)) eqn:E1, (Nat.leb 49 (nat_of_ascii c)) eqn:E2;
    try reflexivity;
    [apply Nat.leb_le in E1; apply Nat.leb_gt in E2
    |apply Nat.leb_gt in E1; apply Nat.leb_le in E2]; lia.
Qed.

Lemma debuggerIsAttached_reads_first_digit_witness :
  let nl := "010"%char in
  let pre :=
    list_ascii_of_string "Name: cat" ++ [nl] ++ list_ascii_of_string "Tgid: 7" ++ [nl] in
  let ws := ["009"%char] in
  debuggerIsAttached
    (read_returns (pre ++ tracerPidString ++ ws ++ list_ascii_of_string "4242" ++ [nl]))
  = true /\
  debuggerIsAttached
    (read_returns (pre ++ tracerPidString ++ ws ++ list_ascii_of_string "0" ++ [nl]))
  = false.
Proof.
  intros nl pre ws.
  assert (Hz : Forall (fun c => Ascii.eqb c Ascii.zero = false) pre)
    by (repeat constructor).
  assert (Hws : Forall (fun c => isspace c = true) ws) by (repeat constructor).
  assert (Hk : forall rest (k : nat), (k < List.length pre)%nat ->
             starts_with tracerPidString
               (skipn k (pre ++ tracerPidString ++ ws ++ rest ++ [Ascii.zero])) = false).
  { intros rest k Hlt.
    do 18 (destruct k as [|k]; [reflexivity|]).
    cbn in Hlt; lia. }
  assert (H4 : (nat_of_ascii "4" < 128)%nat) by (cbn; lia).
  assert (H0 : (nat_of_ascii "0" < 128)%nat) by (cbn; lia).
  split.
  - exact (eq_trans
             (debuggerIsAttached_reads_first_digit pre ws
                (list_ascii_of_string "4242" ++ [nl]) Hz (Hk _) Hws
                (conj (eq_refl : isspace "4" = false) H4))
             eq_refl).
  - exact (eq_trans
             (debuggerIsAttached_reads_first_digit pre ws
                (list_ascii_of_string "0" ++ [nl]) Hz (Hk _) Hws
                (conj (eq_refl : isspace "0" = false) H0))
             eq_refl).
Defined.
